(** * Admin dashboard: booking store, view filter and action dispatcher

    A shallow embedding of [src/pages/admin/AdminDashboard.tsx].

    The React component owns four pieces of state ([bookings], [loading],
    [globalFilter], [statusFilter]) and talks to four collaborators: the
    auth object, the booking service, the toast sink and the router.  The
    handlers are embedded as computations in a small monad that threads the
    component state and a chronological trace of every outward effect, reads
    the collaborators' answers from an environment, and has JavaScript's
    [throw] / [try]-[catch]-[finally]. *)

From stdpp Require Import base option list strings.

Open Scope string_scope.

(** ** Data model *)

(** Modelled from the spec: the [Booking] type of [../../types/booking] is
    not part of the source at hand.  Section 3 of the specification gives its
    fields: a string [id], a [status], an optional [rejectionReason], an
    optional [meetingLink], and descriptive fields this page never touches.
    [status] is kept a string because the page compares it with the string
    held in [statusFilter]. *)
Record Booking := mkBooking {
  id : string;
  status : string;
  rejectionReason : option string;
  meetingLink : option string;
  details : list (string * string)
}.

(** A JavaScript object reference.  The page never mutates a booking object
    in place (it builds new ones with the spread syntax), so a reference is
    modelled as the address of the object together with the value found
    there.  Two references are the same object when they are equal. *)
Record Obj := mkObj {
  addr : nat;
  val : Booking
}.

(** What the page reads of a caught value that is neither null nor
    undefined: [error.message] and [error.code], either of which may be
    absent. *)
Record Error := mkError {
  message : option string;
  code : option string
}.

(** A value a promise can reject with, or a statement can throw: the catch
    clauses take [error: any].  Reading a property of null or undefined
    throws; every other value is seen through the two properties the page
    reads. *)
Inductive Thrown :=
  | Nullish
  | Raised (e : Error).


(** The own properties written after [...b] in an object literal. *)
Record Fields := mkFields {
  with_status : option string;
  with_rejectionReason : option string;
  with_meetingLink : option string
}.

(** [{ ...b, f }]: the fields of [f] win, every other property is [b]'s. *)
Definition spread (b : Booking) (f : Fields) : Booking :=
  {| id := id b;
     status := default (status b) (with_status f);
     rejectionReason :=
       match with_rejectionReason f with
       | Some r => Some r
       | None => rejectionReason b
       end;
     meetingLink :=
       match with_meetingLink f with
       | Some l => Some l
       | None => meetingLink b
       end;
     details := details b |}.

(** ** JavaScript operators on possibly absent strings *)

(** [x || d] where [x] is a string or undefined: the empty string and
    undefined are falsy. *)
Definition or_else (x : option string) (d : string) : string :=
  match x with
  | Some m => if String.eqb m "" then d else m
  | None => d
  end.

(** [x === s] for a string literal [s]. *)
Definition strict_eq (x : option string) (s : string) : bool :=
  match x with
  | Some m => String.eqb m s
  | None => false
  end.

(** ** Effects *)

(** Calls that leave the page and are awaited. *)
Inductive Request :=
  | FetchBookings
  | UpdateBookingStatus (bookingId target : string) (reason : option string)
  | GenerateMeetingLink (bookingId : string)
  | SignOut.

(** How an awaited call settled. *)
Inductive Reply :=
  | Done
  | Bookings (data : list Booking)
  | Link (url : string)
  | Failed (v : Thrown).

(** Everything the page does that is visible from outside, most recent
    first in a trace. *)
Inductive Effect :=
  | Remote (q : Request) (r : Reply)
  | Prompt (text : string) (answer : option string)
  | ToastError (m : string)
  | ToastSuccess (m : string)
  | Navigate (path : string)
  | ConsoleError (label : string) (v : Thrown).

(** The component state of [AdminDashboard] (the four [useState] cells), the
    next free object address, and the trace of effects so far. *)
Record World := mkWorld {
  bookings : list Obj;
  loading : bool;
  globalFilter : string;
  statusFilter : string;
  next : nat;
  trace : list Effect
}.

(** The answers of the collaborators, and of the JavaScript engine, during
    one handler run. *)
Record Env := mkEnv {
  currentUser : option string;
  admin : bool;
  fetched : Thrown + list Booking;
  updated : string -> string -> option string -> Thrown + unit;
  generated : string -> Thrown + string;
  prompted : string -> option string;
  signedOut : Thrown + unit;
  engineText : string
}.

(** The [TypeError] thrown by reading a property of null or undefined; its
    message is the text the engine gives it, [engineText]. *)
Definition type_error (env : Env) : Thrown :=
  Raised {| message := Some (engineText env); code := None |}.

(** The state on mount: [useState([])], [useState(true)], [useState('')],
    [useState('all')]. *)
Definition initial : World :=
  {| bookings := []; loading := true; globalFilter := "";
     statusFilter := "all"; next := 0; trace := [] |}.

(** ** The monad of handlers *)

Inductive Completion (A : Type) :=
  | Normal (a : A)
  | Throw (v : Thrown).
Arguments Normal {A} a.
Arguments Throw {A} v.

Definition M (A : Type) : Type := Env -> World -> Completion A * World.

Definition ret {A} (a : A) : M A := fun _ w => (Normal a, w).

Definition bind {A B} (m : M A) (k : A -> M B) : M B :=
  fun env w =>
    match m env w with
    | (Normal a, w') => k a env w'
    | (Throw e, w') => (Throw e, w')
    end.

Definition throw {A} (v : Thrown) : M A := fun _ w => (Throw v, w).

Declare Scope js_scope.
Delimit Scope js_scope with js.
Notation "'let*' x ':=' m 'in' k" := (bind m (fun x => k))
  (at level 10, x name, m at level 100, k at level 200) : js_scope.
Notation "m ';;;' k" := (bind m (fun _ => k))
  (at level 100, k at level 200, right associativity) : js_scope.
Open Scope js_scope.

(** [try { body } catch (error) { handler }] *)
Definition try_catch {A} (body : M A) (handler : Thrown -> M A) : M A :=
  fun env w =>
    match body env w with
    | (Normal a, w') => (Normal a, w')
    | (Throw e, w') => handler e env w'
    end.

(** [try { body } catch (error) { handler } finally { fin }]: [fin] runs
    however the first two end, and its own throw replaces theirs. *)
Definition try_catch_finally (body : M unit) (handler : Thrown -> M unit)
    (fin : M unit) : M unit :=
  fun env w =>
    match try_catch body handler env w with
    | (Normal a, w') => fin env w'
    | (Throw e, w') =>
        match fin env w' with
        | (Normal _, w'') => (Throw e, w'')
        | (Throw e', w'') => (Throw e', w'')
        end
    end.

Definition ask {A} (f : Env -> A) : M A := fun env w => (Normal (f env), w).

Definition gets {A} (f : World -> A) : M A := fun _ w => (Normal (f w), w).

Definition modify (f : World -> World) : M unit := fun _ w => (Normal tt, f w).

(** *** State cells *)

Definition put_bookings (l : list Obj) (w : World) : World :=
  {| bookings := l; loading := loading w; globalFilter := globalFilter w;
     statusFilter := statusFilter w; next := next w; trace := trace w |}.

Definition put_loading (b : bool) (w : World) : World :=
  {| bookings := bookings w; loading := b; globalFilter := globalFilter w;
     statusFilter := statusFilter w; next := next w; trace := trace w |}.

Definition put_globalFilter (q : string) (w : World) : World :=
  {| bookings := bookings w; loading := loading w; globalFilter := q;
     statusFilter := statusFilter w; next := next w; trace := trace w |}.

Definition put_statusFilter (s : string) (w : World) : World :=
  {| bookings := bookings w; loading := loading w;
     globalFilter := globalFilter w; statusFilter := s; next := next w;
     trace := trace w |}.

Definition put_next (n : nat) (w : World) : World :=
  {| bookings := bookings w; loading := loading w;
     globalFilter := globalFilter w; statusFilter := statusFilter w;
     next := n; trace := trace w |}.

Definition emit (e : Effect) (w : World) : World :=
  {| bookings := bookings w; loading := loading w;
     globalFilter := globalFilter w; statusFilter := statusFilter w;
     next := next w; trace := e :: trace w |}.

(** [setBookings(data)] *)
Definition setBookings_to (data : list Obj) : M unit :=
  modify (put_bookings data).

(** [setBookings((prev) => updater(prev))] *)
Definition setBookings (updater : list Obj -> M (list Obj)) : M unit :=
  let* prev := gets bookings in
  let* l := updater prev in
  modify (put_bookings l).

Definition setLoading (b : bool) : M unit := modify (put_loading b).
Definition setGlobalFilter (q : string) : M unit := modify (put_globalFilter q).
Definition setStatusFilter (s : string) : M unit := modify (put_statusFilter s).

(** *** Objects and arrays *)

(** An object literal evaluates to a new object at a fresh address. *)
Definition new_object (v : Booking) : M Obj :=
  fun _ w => (Normal (mkObj (next w) v), put_next (S (next w)) w).

(** [l.map(f)] *)
Fixpoint array_map (f : Obj -> M Obj) (l : list Obj) : M (list Obj) :=
  match l with
  | [] => ret []
  | b :: rest =>
      let* b' := f b in
      let* rest' := array_map f rest in
      ret (b' :: rest')
  end.

(** [l.filter(p)] *)
Definition array_filter (p : Obj -> bool) (l : list Obj) : list Obj :=
  List.filter p l.

(** *** Collaborators *)

Definition toast_error (m : string) : M unit := modify (emit (ToastError m)).
Definition toast_success (m : string) : M unit := modify (emit (ToastSuccess m)).
Definition navigate (path : string) : M unit := modify (emit (Navigate path)).
Definition console_error (label : string) (v : Thrown) : M unit :=
  modify (emit (ConsoleError label v)).

(** [error.message] *)
Definition get_message (error : Thrown) : M (option string) :=
  match error with
  | Nullish => fun env w => (Throw (type_error env), w)
  | Raised e => ret (message e)
  end.

(** [error.code] *)
Definition get_code (error : Thrown) : M (option string) :=
  match error with
  | Nullish => fun env w => (Throw (type_error env), w)
  | Raised e => ret (code e)
  end.

(** [auth.currentUser] *)
Definition auth_currentUser : M (option string) := ask currentUser.

(** [isAdmin()] *)
Definition isAdmin : M bool := ask admin.

(** [window.prompt(text)] *)
Definition window_prompt (text : string) : M (option string) :=
  let* answer := ask (fun env => prompted env text) in
  modify (emit (Prompt text answer)) ;;;
  ret answer.

(** [await auth.signOut()] *)
Definition auth_signOut : M unit :=
  let* r := ask signedOut in
  match r with
  | inr _ => modify (emit (Remote SignOut Done))
  | inl e => modify (emit (Remote SignOut (Failed e))) ;;; throw e
  end.

(** The objects of a fetched array, one fresh object per record. *)
Fixpoint receive (data : list Booking) : M (list Obj) :=
  match data with
  | [] => ret []
  | v :: rest =>
      let* o := new_object v in
      let* os := receive rest in
      ret (o :: os)
  end.

(** [await fetchBookings()] *)
Definition fetchBookings : M (list Obj) :=
  let* r := ask fetched in
  match r with
  | inr data => modify (emit (Remote FetchBookings (Bookings data))) ;;; receive data
  | inl e => modify (emit (Remote FetchBookings (Failed e))) ;;; throw e
  end.

(** [await updateBookingStatus(bookingId, target, reason)] *)
Definition updateBookingStatus (bookingId target : string)
    (reason : option string) : M unit :=
  let* r := ask (fun env => updated env bookingId target reason) in
  match r with
  | inr _ => modify (emit (Remote (UpdateBookingStatus bookingId target reason) Done))
  | inl e =>
      modify (emit (Remote (UpdateBookingStatus bookingId target reason) (Failed e))) ;;;
      throw e
  end.

(** [await generateMeetingLink(bookingId)] *)
Definition generateMeetingLink (bookingId : string) : M string :=
  let* r := ask (fun env => generated env bookingId) in
  match r with
  | inr url =>
      modify (emit (Remote (GenerateMeetingLink bookingId) (Link url))) ;;; ret url
  | inl e =>
      modify (emit (Remote (GenerateMeetingLink bookingId) (Failed e))) ;;; throw e
  end.

(** ** The handlers of [AdminDashboard] *)

(** [prev.map((b) => b.id === bookingId ? { ...b, f } : b)], the updater
    passed to [setBookings] by the three mutation handlers. *)
Definition patch (bookingId : string) (f : Fields) (prev : list Obj)
    : M (list Obj) :=
  array_map
    (fun b =>
       if String.eqb (id (val b)) bookingId
       then new_object (spread (val b) f)
       else ret b)
    prev.

(** [loadBookings], the body of the mount effect.  The two early [return]s
    of the source are the two [then] branches. *)
Definition loadBookings : M unit :=
  try_catch_finally
    (let* user := auth_currentUser in
     match user with
     | None => navigate "/admin/login"
     | Some _ =>
         let* ok := isAdmin in
         if negb ok then
           toast_error "Unauthorized access" ;;;
           navigate "/admin/login"
         else
           let* data := fetchBookings in
           setBookings_to data
     end)
    (fun error =>
       console_error "Error fetching bookings:" error ;;;
       let* text := get_message error in
       toast_error (or_else text "Failed to fetch bookings") ;;;
       let* c := get_code error in
       if strict_eq c "permission-denied" then navigate "/admin/login"
       else
         let* m := get_message error in
         if strict_eq m "Unauthorized access" then navigate "/admin/login"
         else ret tt)
    (setLoading false).

Definition handleLogout : M unit :=
  try_catch
    (auth_signOut ;;;
     navigate "/admin/login")
    (fun error => toast_error "Failed to logout").

Definition handleApprove (bookingId : string) (booking : Obj) : M unit :=
  try_catch
    (updateBookingStatus bookingId "approved" None ;;;
     setBookings (patch bookingId (mkFields (Some "approved") None None)) ;;;
     toast_success "Booking approved successfully")
    (fun error =>
       console_error "Error approving booking:" error ;;;
       let* text := get_message error in
       toast_error (or_else text "Failed to approve booking") ;;;
       let* m := get_message error in
       if strict_eq m "Unauthorized access"
       then navigate "/admin/login"
       else ret tt).

Definition handleReject (bookingId : string) (booking : Obj) : M unit :=
  let* reason := window_prompt "Please enter a reason for rejection:" in
  match reason with
  | None => ret tt
  | Some reason =>
      try_catch
        (updateBookingStatus bookingId "rejected" (Some reason) ;;;
         setBookings
           (patch bookingId (mkFields (Some "rejected") (Some reason) None)) ;;;
         toast_success "Booking rejected successfully")
        (fun error =>
           console_error "Error rejecting booking:" error ;;;
           let* text := get_message error in
           toast_error (or_else text "Failed to reject booking") ;;;
           let* m := get_message error in
           if strict_eq m "Unauthorized access"
           then navigate "/admin/login"
           else ret tt)
  end.

Definition handleGenerateMeetLink (bookingId : string) (booking : Obj)
    : M unit :=
  try_catch
    (let* meetLink := generateMeetingLink bookingId in
     setBookings (patch bookingId (mkFields None None (Some meetLink))) ;;;
     toast_success "Meeting link generated successfully")
    (fun error =>
       console_error "Error generating meeting link:" error ;;;
       let* text := get_message error in
       toast_error (or_else text "Failed to generate meeting link") ;;;
       let* m := get_message error in
       if strict_eq m "Unauthorized access"
       then navigate "/admin/login"
       else ret tt).

(** ** Rendering *)

(** The props handed to [BookingTable]. *)
Record BookingTableProps := mkProps {
  props_bookings : list Obj;
  props_globalFilter : string;
  onGlobalFilterChange : string -> M unit;
  onApprove : string -> Obj -> M unit;
  onReject : string -> Obj -> M unit;
  onGenerateMeetLink : string -> Obj -> M unit
}.

Inductive View :=
  | Spinner
  | Dashboard (table : BookingTableProps).

(** The argument of [bookings.filter] in the JSX. *)
Definition status_matches (statusFilter : string) (booking : Obj) : bool :=
  String.eqb statusFilter "all" || String.eqb (status (val booking)) statusFilter.

(** The render pass: the function body after the handlers. *)
Definition render : M View :=
  let* l := gets loading in
  if l then ret Spinner
  else
    let* bs := gets bookings in
    let* sf := gets statusFilter in
    let* gf := gets globalFilter in
    ret (Dashboard
           {| props_bookings := array_filter (status_matches sf) bs;
              props_globalFilter := gf;
              onGlobalFilterChange := setGlobalFilter;
              onApprove := handleApprove;
              onReject := handleReject;
              onGenerateMeetLink := handleGenerateMeetLink |}).

(** ** What can happen to the page *)

(** The three mutations offered to [BookingTable]. *)
Inductive Mutation :=
  | Approve
  | Reject
  | GenerateMeetingLinkFor.

Definition handler (m : Mutation) : string -> Obj -> M unit :=
  match m with
  | Approve => handleApprove
  | Reject => handleReject
  | GenerateMeetingLinkFor => handleGenerateMeetLink
  end.

(** The mount effect, the callbacks of the table, the logout button and the
    two filter inputs. *)
Inductive Action :=
  | Mount
  | Mutate (m : Mutation) (bookingId : string) (booking : Obj)
  | Logout
  | TypeQuery (q : string)
  | SelectStatus (s : string).

Definition perform (a : Action) : M unit :=
  match a with
  | Mount => loadBookings
  | Mutate m bookingId booking => handler m bookingId booking
  | Logout => handleLogout
  | TypeQuery q => setGlobalFilter q
  | SelectStatus s => setStatusFilter s
  end.

(** The state after a computation has run to completion. *)
Definition after {A} (m : M A) (env : Env) (w : World) : World :=
  snd (m env w).

(** A run: the actions in the order they happen, each with the answers the
    collaborators give while it runs. *)
Fixpoint run (script : list (Action * Env)) (w : World) : World :=
  match script with
  | [] => w
  | (a, env) :: rest => run rest (after (perform a) env w)
  end.

Inductive reachable : World -> Prop :=
  | reachable_initial : reachable initial
  | reachable_step a env w :
      reachable w -> reachable (after (perform a) env w).

(** ** Reading a trace *)

Definition toasts (t : list Effect) : list Effect :=
  List.filter
    (fun e => match e with ToastError _ | ToastSuccess _ => true | _ => false end) t.

Definition navigations (t : list Effect) : list string :=
  omap (fun e => match e with Navigate p => Some p | _ => None end) t.

Definition remote_calls (t : list Effect) : list Request :=
  omap (fun e => match e with Remote q _ => Some q | _ => None end) t.

(** The records delivered by the latest successful fetch. *)
Fixpoint loaded (t : list Effect) : list Booking :=
  match t with
  | [] => []
  | Remote FetchBookings (Bookings data) :: _ => data
  | _ :: rest => loaded rest
  end.

(** The most recent status transition applied to the record [i]: target
    status and reason of the latest confirmed status update for [i] since
    the records were fetched. *)
Fixpoint last_transition (t : list Effect) (i : string)
    : option (string * option string) :=
  match t with
  | [] => None
  | Remote FetchBookings (Bookings _) :: _ => None
  | Remote (UpdateBookingStatus j target reason) Done :: rest =>
      if String.eqb j i then Some (target, reason) else last_transition rest i
  | _ :: rest => last_transition rest i
  end.

(** The reason of the latest confirmed rejection of [i] since the records
    were fetched, whatever happened to [i] afterwards. *)
Fixpoint last_rejection (t : list Effect) (i : string) : option string :=
  match t with
  | [] => None
  | Remote FetchBookings (Bookings _) :: _ => None
  | Remote (UpdateBookingStatus j target (Some reason)) Done :: rest =>
      if String.eqb j i && String.eqb target "rejected" then Some reason
      else last_rejection rest i
  | _ :: rest => last_rejection rest i
  end.

(** The fallback text each mutation shows when the error has no message. *)
Definition fallback (m : Mutation) : string :=
  match m with
  | Approve => "Failed to approve booking"
  | Reject => "Failed to reject booking"
  | GenerateMeetingLinkFor => "Failed to generate meeting link"
  end.

(** The remote call of the mutation [m] on [bookingId] rejects with [v]; for
    [Reject] this is after the prompt has returned a reason. *)
Definition remote_fails (m : Mutation) (bookingId : string) (env : Env)
    (v : Thrown) : Prop :=
  match m with
  | Approve => updated env bookingId "approved" None = inl v
  | Reject =>
      exists reason,
        prompted env "Please enter a reason for rejection:" = Some reason /\
        updated env bookingId "rejected" (Some reason) = inl v
  | GenerateMeetingLinkFor => generated env bookingId = inl v
  end.

(** The property of section 3 of the specification: a record carries a
    rejection reason exactly when its most recent transition was to
    rejected. *)
Definition reason_iff_last_rejected (w : World) : Prop :=
  forall o, o ∈ bookings w ->
    is_Some (rejectionReason (val o)) <->
    exists reason, last_transition (trace w) (id (val o)) = Some ("rejected", reason).

(** ** Vocabulary of the invariants *)

(** The relation between a record and what [patch] puts in its place, when
    addresses from [lo] up to [hi] are handed out. *)
Definition patched_at (i : string) (f : Fields) (lo hi : nat) (b b' : Obj)
    : Prop :=
  if String.eqb (id (val b)) i
  then val b' = spread (val b) f /\ lo <= addr b' < hi
  else b' = b.

(** The objects of [l] live at pairwise different addresses, all handed
    out before [n]. *)
Definition distinct_below (n : nat) (l : list Obj) : Prop :=
  Forall (fun o => addr o < n) l /\ NoDup (addr <$> l).

(** Every object of the store has been allocated, and no two positions of
    the store hold the same object. *)
Definition allocated (w : World) : Prop :=
  distinct_below (next w) (bookings w).

(** Every status update the page sends towards rejected carries a reason. *)
Definition sends_reason (e : Effect) : Prop :=
  match e with
  | Remote (UpdateBookingStatus _ target reason) _ =>
      target = "rejected" -> is_Some reason
  | _ => True
  end.

(** The store lines up with the fetched records position by position: same
    id, and the rejection reason is that of the latest confirmed rejection
    since the fetch or, failing that, the fetched one. *)
Definition consistent (l : list Obj) (t : list Effect) : Prop :=
  Forall2
    (fun o b =>
       id (val o) = id b /\
       rejectionReason (val o) =
         match last_rejection t (id b) with
         | Some r => Some r
         | None => rejectionReason b
         end)
    l (loaded t).

(** An effect that neither delivers records nor confirms a rejection. *)
Definition neutral (e : Effect) : Prop :=
  forall t,
    loaded (e :: t) = loaded t /\
    forall i, last_rejection (e :: t) i = last_rejection t i.

(** The invariant of a run. *)
Definition steady (w : World) : Prop :=
  consistent (bookings w) (trace w) /\ Forall sends_reason (trace w).

(** What holds instead: the store lines up with the fetched records; the
    rejection reason of a record is the reason of the latest confirmed
    rejection of its id since the fetch, whatever was done to the record
    afterwards, and the reason it was fetched with when there was none; so
    a record carries a rejection reason exactly when it was fetched with
    one or a rejection of its id was confirmed since the fetch, and a most
    recent transition to rejected fixes the reason. *)
Definition reason_since_fetch (w : World) : Prop :=
  length (bookings w) = length (loaded (trace w)) /\
  forall k o, bookings w !! k = Some o ->
    exists b,
      loaded (trace w) !! k = Some b /\
      id (val o) = id b /\
      rejectionReason (val o) =
        match last_rejection (trace w) (id b) with
        | Some reason => Some reason
        | None => rejectionReason b
        end /\
      (is_Some (rejectionReason (val o)) <->
       is_Some (last_rejection (trace w) (id b)) \/ is_Some (rejectionReason b)) /\
      (forall x, last_transition (trace w) (id b) = Some ("rejected", x) ->
         is_Some x /\ rejectionReason (val o) = x).

(** ** Vocabulary of the further properties *)

(** The text each mutation shows when the remote call is confirmed. *)
Definition success_text (m : Mutation) : string :=
  match m with
  | Approve => "Booking approved successfully"
  | Reject => "Booking rejected successfully"
  | GenerateMeetingLinkFor => "Meeting link generated successfully"
  end.

(** The remote call of the mutation [m] on [bookingId] is confirmed, and
    [f] are the fields the handler then spreads over the matching records;
    for [Reject] this is after the prompt has returned a reason. *)
Definition remote_succeeds (m : Mutation) (bookingId : string) (env : Env)
    (f : Fields) : Prop :=
  match m with
  | Approve =>
      updated env bookingId "approved" None = inr tt /\
      f = mkFields (Some "approved") None None
  | Reject =>
      exists reason,
        prompted env "Please enter a reason for rejection:" = Some reason /\
        updated env bookingId "rejected" (Some reason) = inr tt /\
        f = mkFields (Some "rejected") (Some reason) None
  | GenerateMeetingLinkFor =>
      exists url,
        generated env bookingId = inr url /\
        f = mkFields None None (Some url)
  end.

(** What the arrow function given to [map] does to the value of a record. *)
Definition patched_value (i : string) (f : Fields) (v : Booking) : Booking :=
  if String.eqb (id v) i then spread v f else v.

(** How the store after a step relates to the store before: the same
    array, the array patched for one id, or the fetched records. *)
Inductive store_step (env : Env) (a : Action) (w w' : World) : Prop :=
  | store_kept : bookings w' = bookings w -> store_step env a w w'
  | store_patched i f lo hi :
      a <> Mount ->
      Forall2 (patched_at i f lo hi) (bookings w) (bookings w') ->
      store_step env a w w'
  | store_loaded data :
      a = Mount -> fetched env = inr data -> val <$> bookings w' = data ->
      store_step env a w w'.

(** The one situation in which a catch block reads a property of null or
    undefined: the awaited call of [loadBookings] or of a mutation rejects
    with such a value. *)
Definition nullish_rejection (a : Action) (env : Env) : Prop :=
  match a with
  | Mount =>
      is_Some (currentUser env) /\ admin env = true /\
      fetched env = inl Nullish
  | Mutate m bookingId _ => remote_fails m bookingId env Nullish
  | _ => False
  end.

(** What a single step may add to the trace: at most one remote call, at
    most one toast, and navigation to the login page only. *)
Definition modest (new : list Effect) : Prop :=
  length (remote_calls new) <= 1 /\
  length (toasts new) <= 1 /\
  Forall (fun p => p = "/admin/login") (navigations new).

(** ** Concrete data used in examples *)

Definition pending (i : string) : Booking :=
  {| id := i; status := "pending"; rejectionReason := None;
     meetingLink := None; details := [("name", "A. Requester")] |}.

Definition quiet : Env :=
  {| currentUser := Some "uid-1"; admin := true;
     fetched := inr [pending "1"; pending "2"];
     updated := fun _ _ _ => inr tt;
     generated := fun i => inr ("https://meet.example/" ++ i);
     prompted := fun _ => Some "schedule conflict";
     signedOut := inr tt;
     engineText := "Cannot read properties of undefined" |}.

Definition failing (e : Error) : Env :=
  {| currentUser := Some "uid-1"; admin := true;
     fetched := inl (Raised e);
     updated := fun _ _ _ => inl (Raised e);
     generated := fun _ => inl (Raised e);
     prompted := fun _ => Some "schedule conflict";
     signedOut := inl (Raised e);
     engineText := "Cannot read properties of undefined" |}.

(** Every remote call rejects with undefined. *)
Definition voiding : Env :=
  {| currentUser := Some "uid-1"; admin := true;
     fetched := inl Nullish;
     updated := fun _ _ _ => inl Nullish;
     generated := fun _ => inl Nullish;
     prompted := fun _ => Some "schedule conflict";
     signedOut := inl Nullish;
     engineText := "Cannot read properties of undefined" |}.

Definition denied : Error :=
  {| message := Some "Missing or insufficient permissions.";
     code := Some "permission-denied" |}.

(** Nobody is signed in. *)
Definition anonymous : Env :=
  {| currentUser := None; admin := false;
     fetched := inr [pending "1"];
     updated := fun _ _ _ => inr tt;
     generated := fun i => inr ("https://meet.example/" ++ i);
     prompted := fun _ => None;
     signedOut := inr tt;
     engineText := "Cannot read properties of undefined" |}.

(** The administrator dismisses every prompt. *)
Definition cancelling : Env :=
  {| currentUser := Some "uid-1"; admin := true;
     fetched := inr [pending "1"; pending "2"];
     updated := fun _ _ _ => inr tt;
     generated := fun i => inr ("https://meet.example/" ++ i);
     prompted := fun _ => None;
     signedOut := inr tt;
     engineText := "Cannot read properties of undefined" |}.

(** The administrator confirms every prompt without typing anything. *)
Definition wordless : Env :=
  {| currentUser := Some "uid-1"; admin := true;
     fetched := inr [pending "1"; pending "2"];
     updated := fun _ _ _ => inr tt;
     generated := fun i => inr ("https://meet.example/" ++ i);
     prompted := fun _ => Some "";
     signedOut := inr tt;
     engineText := "Cannot read properties of undefined" |}.

Definition first_row : Obj := mkObj 0 (pending "1").

Definition two_pending : World := after loadBookings quiet initial.

Definition rejected_then_approved : World :=
  run [ (Mount, quiet);
        (Mutate Reject "1" first_row, quiet);
        (Mutate Approve "1" first_row, quiet) ] initial.

(** Record 1 has been given a meeting link. *)
Definition linked : World :=
  run [ (Mount, quiet);
        (Mutate GenerateMeetingLinkFor "1" first_row, quiet) ] initial.

(** Two pending records, seen through the pending filter. *)
Definition pending_view : World :=
  after (setStatusFilter "pending") quiet two_pending.

Definition approving : Fields := mkFields (Some "approved") None None.

(** * Properties *)

(** ** Tactics *)

Ltac run_handler :=
  unfold handleApprove, handleReject, handleGenerateMeetLink, handleLogout,
    loadBookings, try_catch_finally, try_catch, updateBookingStatus,
    generateMeetingLink, fetchBookings, auth_signOut, window_prompt,
    auth_currentUser, isAdmin, setBookings, setBookings_to, setLoading,
    toast_error, toast_success, navigate, console_error,
    get_message, get_code,
    bind, ret, throw, ask, gets, modify; cbn beta iota.

Ltac neutral_effect := intros ?; split; [|intros ?]; reflexivity.

(** ** Running the primitives *)

Lemma put_next_same w : put_next (next w) w = w.
Proof. by destruct w. Qed.

Lemma put_next_twice n m w : put_next n (put_next m w) = put_next n w.
Proof. done. Qed.

Lemma patched_at_mono i f lo lo' hi hi' b b' :
  lo' <= lo -> hi <= hi' ->
  patched_at i f lo hi b b' -> patched_at i f lo' hi' b b'.
Proof.
  unfold patched_at. destruct (String.eqb _ _); [|done].
  intros ?? [? ?]. split; [done | lia].
Qed.

Lemma patched_origin i f lo hi l l' o' :
  Forall2 (patched_at i f lo hi) l l' ->
  o' ∈ l' -> o' ∈ l \/ lo <= addr o' < hi.
Proof.
  intros Hall Ho'. apply list_elem_of_lookup in Ho' as [k Hk'].
  destruct (Forall2_lookup_r _ _ _ _ _ Hall Hk') as (o & Hk & Hrel).
  unfold patched_at in Hrel. destruct (String.eqb (id (val o)) i).
  - right. by destruct Hrel.
  - left. subst o'. by eapply list_elem_of_lookup_2.
Qed.

Lemma distinct_below_cons n o l :
  distinct_below n (o :: l) <->
  addr o < n /\ (forall o', o' ∈ l -> addr o' <> addr o) /\ distinct_below n l.
Proof.
  unfold distinct_below. rewrite Forall_cons, fmap_cons, NoDup_cons.
  rewrite list_elem_of_fmap. split.
  - intros [[? ?] [Hnot ?]]. split; [done|]. split; [|done].
    intros o' Ho' Heq. apply Hnot. by exists o'.
  - intros (? & Hne & ? & ?). split; [done|]. split; [|done].
    intros (o' & Heq & Ho'). by apply (Hne o').
Qed.

Lemma distinct_below_mono n n' l :
  n <= n' -> distinct_below n l -> distinct_below n' l.
Proof.
  intros Hle [Hb Hd]. split; [|done].
  eapply Forall_impl; [exact Hb|]. intros o Ho. cbn in Ho. lia.
Qed.

(** [patch] never throws, touches nothing but the address counter, relates
    the two arrays position by position, and keeps the objects distinct. *)
Lemma patch_spec i f prev env w :
  exists l' n',
    patch i f prev env w = (Normal l', put_next n' w) /\
    next w <= n' /\
    Forall2 (patched_at i f (next w) n') prev l' /\
    (distinct_below (next w) prev -> distinct_below n' l').
Proof.
  revert w. induction prev as [|b rest IH]; intros w.
  - exists [], (next w). rewrite put_next_same.
    split; [done|]. split; [done|]. split; [constructor | done].
  - unfold patch in *. cbn [array_map]. unfold bind at 1.
    destruct (String.eqb (id (val b)) i) eqn:Hb.
    + unfold new_object at 1.
      destruct (IH (put_next (S (next w)) w))
        as (l' & n' & Hrun & Hle & Hall & Hdist).
      cbn [next put_next] in Hle, Hall, Hdist.
      exists (mkObj (next w) (spread (val b) f) :: l'), n'.
      unfold bind. rewrite Hrun. unfold ret. rewrite put_next_twice.
      split; [done|]. split; [lia|]. split.
      * constructor.
        -- unfold patched_at. rewrite Hb. cbn. split; [done | lia].
        -- eapply Forall2_impl; [exact Hall|].
           intros x y. apply patched_at_mono; lia.
      * intros (Hlt & Hne & Hrest)%distinct_below_cons.
        apply distinct_below_cons. cbn [addr].
        split; [lia|]. split.
        -- intros o' Ho'.
           destruct (patched_origin _ _ _ _ _ _ _ Hall Ho') as [Hold|Hnew]; [|lia].
           destruct Hrest as [Hbound _].
           rewrite Forall_forall in Hbound. specialize (Hbound o' Hold). lia.
        -- apply Hdist. eapply distinct_below_mono; [|exact Hrest]. lia.
    + unfold ret at 1.
      destruct (IH w) as (l' & n' & Hrun & Hle & Hall & Hdist).
      exists (b :: l'), n'.
      unfold bind. rewrite Hrun. unfold ret.
      split; [done|]. split; [done|]. split.
      * constructor; [|done]. unfold patched_at. by rewrite Hb.
      * intros (Hlt & Hne & Hrest)%distinct_below_cons.
        apply distinct_below_cons.
        split; [lia|]. split; [|by apply Hdist].
        intros o' Ho'.
        destruct (patched_origin _ _ _ _ _ _ _ Hall Ho') as [Hold|Hnew]; [|lia].
        by apply Hne.
Qed.

(** ** Running the handlers *)

Lemma handleApprove_fails i booking env w e :
  updated env i "approved" None = inl (Raised e) ->
  handleApprove i booking env w =
    (Normal tt,
     let w1 :=
       emit (ToastError (or_else (message e) "Failed to approve booking"))
         (emit (ConsoleError "Error approving booking:" (Raised e))
            (emit (Remote (UpdateBookingStatus i "approved" None) (Failed (Raised e))) w)) in
     if strict_eq (message e) "Unauthorized access"
     then emit (Navigate "/admin/login") w1 else w1).
Proof.
  intros He. run_handler. rewrite He. cbn beta iota.
  by destruct (strict_eq (message e) "Unauthorized access").
Qed.

Lemma handleReject_fails i booking env w reason e :
  prompted env "Please enter a reason for rejection:" = Some reason ->
  updated env i "rejected" (Some reason) = inl (Raised e) ->
  handleReject i booking env w =
    (Normal tt,
     let w1 :=
       emit (ToastError (or_else (message e) "Failed to reject booking"))
         (emit (ConsoleError "Error rejecting booking:" (Raised e))
            (emit (Remote (UpdateBookingStatus i "rejected" (Some reason)) (Failed (Raised e)))
               (emit (Prompt "Please enter a reason for rejection:" (Some reason)) w))) in
     if strict_eq (message e) "Unauthorized access"
     then emit (Navigate "/admin/login") w1 else w1).
Proof.
  intros Hp He. run_handler. rewrite Hp. run_handler. rewrite He. cbn beta iota.
  by destruct (strict_eq (message e) "Unauthorized access").
Qed.

Lemma handleGenerateMeetLink_fails i booking env w e :
  generated env i = inl (Raised e) ->
  handleGenerateMeetLink i booking env w =
    (Normal tt,
     let w1 :=
       emit (ToastError (or_else (message e) "Failed to generate meeting link"))
         (emit (ConsoleError "Error generating meeting link:" (Raised e))
            (emit (Remote (GenerateMeetingLink i) (Failed (Raised e))) w)) in
     if strict_eq (message e) "Unauthorized access"
     then emit (Navigate "/admin/login") w1 else w1).
Proof.
  intros He. run_handler. rewrite He. cbn beta iota.
  by destruct (strict_eq (message e) "Unauthorized access").
Qed.

Lemma handleApprove_rejects_nullish i booking env w :
  updated env i "approved" None = inl Nullish ->
  handleApprove i booking env w =
    (Throw (type_error env),
     emit (ConsoleError "Error approving booking:" Nullish)
       (emit (Remote (UpdateBookingStatus i "approved" None) (Failed Nullish)) w)).
Proof. intros He. run_handler. by rewrite He. Qed.

Lemma handleReject_rejects_nullish i booking env w reason :
  prompted env "Please enter a reason for rejection:" = Some reason ->
  updated env i "rejected" (Some reason) = inl Nullish ->
  handleReject i booking env w =
    (Throw (type_error env),
     emit (ConsoleError "Error rejecting booking:" Nullish)
       (emit (Remote (UpdateBookingStatus i "rejected" (Some reason)) (Failed Nullish))
          (emit (Prompt "Please enter a reason for rejection:" (Some reason)) w))).
Proof. intros Hp He. run_handler. rewrite Hp. run_handler. by rewrite He. Qed.

Lemma handleGenerateMeetLink_rejects_nullish i booking env w :
  generated env i = inl Nullish ->
  handleGenerateMeetLink i booking env w =
    (Throw (type_error env),
     emit (ConsoleError "Error generating meeting link:" Nullish)
       (emit (Remote (GenerateMeetingLink i) (Failed Nullish)) w)).
Proof. intros He. run_handler. by rewrite He. Qed.

Lemma handleReject_cancelled i booking env w :
  prompted env "Please enter a reason for rejection:" = None ->
  handleReject i booking env w =
    (Normal tt, emit (Prompt "Please enter a reason for rejection:" None) w).
Proof. intros Hp. run_handler. by rewrite Hp. Qed.

Lemma handleApprove_succeeds i booking env w u :
  updated env i "approved" None = inr u ->
  exists l' n',
    handleApprove i booking env w =
      (Normal tt,
       emit (ToastSuccess "Booking approved successfully")
         (put_bookings l'
            (put_next n'
               (emit (Remote (UpdateBookingStatus i "approved" None) Done) w)))) /\
    next w <= n' /\
    Forall2 (patched_at i (mkFields (Some "approved") None None) (next w) n')
      (bookings w) l' /\
    (distinct_below (next w) (bookings w) -> distinct_below n' l').
Proof.
  intros Hu.
  destruct (patch_spec i (mkFields (Some "approved") None None) (bookings w) env
              (emit (Remote (UpdateBookingStatus i "approved" None) Done) w))
    as (l' & n' & Hrun & Hle & Hall & Hdist).
  exists l', n'. split; [|done].
  run_handler. rewrite Hu. cbn beta iota.
  cbn [bookings emit] in Hrun |- *. by rewrite Hrun.
Qed.

Lemma handleReject_succeeds i booking env w reason u :
  prompted env "Please enter a reason for rejection:" = Some reason ->
  updated env i "rejected" (Some reason) = inr u ->
  exists l' n',
    handleReject i booking env w =
      (Normal tt,
       emit (ToastSuccess "Booking rejected successfully")
         (put_bookings l'
            (put_next n'
               (emit (Remote (UpdateBookingStatus i "rejected" (Some reason)) Done)
                  (emit (Prompt "Please enter a reason for rejection:" (Some reason)) w))))) /\
    next w <= n' /\
    Forall2 (patched_at i (mkFields (Some "rejected") (Some reason) None) (next w) n')
      (bookings w) l' /\
    (distinct_below (next w) (bookings w) -> distinct_below n' l').
Proof.
  intros Hp Hu.
  destruct (patch_spec i (mkFields (Some "rejected") (Some reason) None)
              (bookings w) env
              (emit (Remote (UpdateBookingStatus i "rejected" (Some reason)) Done)
                 (emit (Prompt "Please enter a reason for rejection:" (Some reason)) w)))
    as (l' & n' & Hrun & Hle & Hall & Hdist).
  exists l', n'. split; [|done].
  run_handler. rewrite Hp. run_handler. rewrite Hu. cbn beta iota.
  cbn [bookings emit] in Hrun |- *. by rewrite Hrun.
Qed.

Lemma handleGenerateMeetLink_succeeds i booking env w url :
  generated env i = inr url ->
  exists l' n',
    handleGenerateMeetLink i booking env w =
      (Normal tt,
       emit (ToastSuccess "Meeting link generated successfully")
         (put_bookings l'
            (put_next n'
               (emit (Remote (GenerateMeetingLink i) (Link url)) w)))) /\
    next w <= n' /\
    Forall2 (patched_at i (mkFields None None (Some url)) (next w) n')
      (bookings w) l' /\
    (distinct_below (next w) (bookings w) -> distinct_below n' l').
Proof.
  intros Hu.
  destruct (patch_spec i (mkFields None None (Some url)) (bookings w) env
              (emit (Remote (GenerateMeetingLink i) (Link url)) w))
    as (l' & n' & Hrun & Hle & Hall & Hdist).
  exists l', n'. split; [|done].
  run_handler. rewrite Hu. cbn beta iota.
  cbn [bookings emit] in Hrun |- *. by rewrite Hrun.
Qed.

(** ** The store patch *)

Lemma eqb_id_true (b : Obj) i : id (val b) = i -> String.eqb (id (val b)) i = true.
Proof. intros ->. apply String.eqb_refl. Qed.

Lemma eqb_id_false (b : Obj) i : id (val b) <> i -> String.eqb (id (val b)) i = false.
Proof. intros H. by apply String.eqb_neq. Qed.

Lemma patch_absent i f prev env w :
  Forall (fun b => id (val b) <> i) prev ->
  patch i f prev env w = (Normal prev, w).
Proof.
  unfold patch. induction 1 as [|b rest Hb _ IH]; [done|].
  cbn [array_map]. unfold bind at 1.
  rewrite (eqb_id_false _ _ Hb). unfold ret at 1.
  unfold bind. by rewrite IH.
Qed.

Lemma setBookings_patch i f env w :
  exists l' n',
    setBookings (patch i f) env w = (Normal tt, put_bookings l' (put_next n' w)) /\
    next w <= n' /\
    Forall2 (patched_at i f (next w) n') (bookings w) l' /\
    (distinct_below (next w) (bookings w) -> distinct_below n' l').
Proof.
  destruct (patch_spec i f (bookings w) env w) as (l' & n' & Hrun & Hle & Hall & Hdist).
  exists l', n'. split; [|done].
  run_handler. by rewrite Hrun.
Qed.

(** C3. For every store and every id [i] that occurs in it, the patch
    (which maps a record [b] to the merge of the fields over [b] when
    [b.id = i] and to [b] itself otherwise) keeps the number of records,
    puts at every position whose record has id [i] a new object, and leaves
    at every other position the very same object.  The new object is the
    merge of the fields over the prior value: each of status, rejection
    reason and meeting link has the given value when the fields give one
    and the prior value otherwise, and the id and the descriptive fields are
    the prior ones. *)
Theorem patch_changes_only_matching i f env w :
  i ∈ ((fun b => id (val b)) <$> bookings w) ->
  let w' := after (setBookings (patch i f)) env w in
  length (bookings w') = length (bookings w) /\
  (exists k b, bookings w !! k = Some b /\ id (val b) = i) /\
  forall k b, bookings w !! k = Some b ->
    (id (val b) = i ->
       exists b', bookings w' !! k = Some b' /\
                  val b' = spread (val b) f /\ next w <= addr b' /\
                  id (val b') = id (val b) /\
                  details (val b') = details (val b) /\
                  status (val b') =
                    match with_status f with
                    | Some s => s
                    | None => status (val b)
                    end /\
                  rejectionReason (val b') =
                    match with_rejectionReason f with
                    | Some reason => Some reason
                    | None => rejectionReason (val b)
                    end /\
                  meetingLink (val b') =
                    match with_meetingLink f with
                    | Some link => Some link
                    | None => meetingLink (val b)
                    end) /\
    (id (val b) <> i -> bookings w' !! k = Some b).
Proof.
  intros Hin w'. subst w'. unfold after.
  destruct (setBookings_patch i f env w) as (l' & n' & -> & Hle & Hall & _).
  cbn [snd bookings put_bookings].
  split; [symmetry; by eapply Forall2_length|].
  split.
  { apply list_elem_of_fmap in Hin as (b & -> & Hb).
    apply list_elem_of_lookup in Hb as [k Hk]. by exists k, b. }
  intros k b Hk.
  destruct (Forall2_lookup_l _ _ _ _ _ Hall Hk) as (b' & Hk' & Hrel).
  unfold patched_at in Hrel. split; intros Hid.
  - rewrite (eqb_id_true _ _ Hid) in Hrel. destruct Hrel as [Hv [Hlo _]].
    exists b'. rewrite Hv. cbn [id status rejectionReason meetingLink details spread].
    by repeat split.
  - rewrite (eqb_id_false _ _ Hid) in Hrel. by subst b'.
Qed.

(** C4. For every store, every id [i] that does not occur in it and every
    set of fields, applying the patch for [i] is a no-op: it completes
    normally and leaves the store (and everything else) as it was. *)
Theorem patch_absent_id_is_noop i f env w :
  i ∉ ((fun b => id (val b)) <$> bookings w) ->
  setBookings (patch i f) env w = (Normal tt, w) /\
  bookings (after (setBookings (patch i f)) env w) = bookings w.
Proof.
  intros Hnot.
  assert (Habs : Forall (fun b => id (val b) <> i) (bookings w)).
  { apply Forall_forall. intros b Hb Hid. apply Hnot.
    apply list_elem_of_fmap. by exists b. }
  assert (Hrun : setBookings (patch i f) env w = (Normal tt, w)).
  { run_handler. rewrite (patch_absent _ _ _ _ _ Habs). by destruct w. }
  split; [done|]. unfold after. by rewrite Hrun.
Qed.

(** ** Failure of a mutation *)

Lemma or_else_spec x d :
  (forall s, x = Some s -> s <> "" -> or_else x d = s) /\
  (x = None \/ x = Some "" -> or_else x d = d).
Proof.
  split.
  - intros s -> Hs. cbn. apply String.eqb_neq in Hs. by rewrite Hs.
  - by intros [-> | ->].
Qed.

(** A mutation whose call rejects with anything but null or undefined
    completes normally (the error is handled in the handler), leaves every
    state cell as it was, and adds to the trace, on top of the failed call,
    the console line, one error toast and, exactly when the message is the
    sentinel, one navigation. *)
Lemma mutation_failure m i booking env w e :
  remote_fails m i env (Raised e) ->
  exists call,
    handler m i booking env w =
      (Normal tt,
       let w1 := emit (ToastError (or_else (message e) (fallback m))) call in
       if strict_eq (message e) "Unauthorized access"
       then emit (Navigate "/admin/login") w1 else w1) /\
    bookings call = bookings w /\
    next call = next w /\
    toasts (trace call) = toasts (trace w) /\
    navigations (trace call) = navigations (trace w).
Proof.
  destruct m; cbn [remote_fails handler fallback].
  - intros He. eexists. split; [by apply handleApprove_fails|]. done.
  - intros (reason & Hp & He). eexists.
    split; [by eapply handleReject_fails|]. done.
  - intros He. eexists. split; [by apply handleGenerateMeetLink_fails|]. done.
Qed.

(** A mutation whose call rejects with null or undefined ends by throwing:
    the catch block logs the value and then reads its [message], which
    throws before any toast is shown. *)
Lemma mutation_failure_nullish m i booking env w :
  remote_fails m i env Nullish ->
  exists w',
    handler m i booking env w = (Throw (type_error env), w') /\
    bookings w' = bookings w /\
    next w' = next w /\
    loading w' = loading w /\
    toasts (trace w') = toasts (trace w) /\
    navigations (trace w') = navigations (trace w).
Proof.
  destruct m; cbn [remote_fails handler].
  - intros He. eexists. split; [by apply handleApprove_rejects_nullish|]. done.
  - intros (reason & Hp & He). eexists.
    split; [by eapply handleReject_rejects_nullish|]. done.
  - intros He. eexists.
    split; [by apply handleGenerateMeetLink_rejects_nullish|]. done.
Qed.



(** What the mutation handlers do about navigation: they go to the login
    page exactly when the message of the error is the sentinel; the code of
    the error plays no part. *)
Lemma mutation_failure_navigation m i booking env w e :
  remote_fails m i env (Raised e) ->
  navigations (trace (after (handler m i booking) env w)) =
    if strict_eq (message e) "Unauthorized access"
    then "/admin/login" :: navigations (trace w)
    else navigations (trace w).
Proof.
  intros Hfail. unfold after.
  destruct (mutation_failure m i booking env w e Hfail)
    as (call & -> & _ & _ & _ & Hn).
  cbn [snd].
  unfold navigations in *.
  destruct (strict_eq (message e) "Unauthorized access");
    cbn [trace emit omap list_omap]; by rewrite Hn.
Qed.

(** The same failure at load time does look at the code. *)
Lemma load_failure_navigation env w u e :
  currentUser env = Some u -> admin env = true -> fetched env = inl (Raised e) ->
  navigations (trace (after loadBookings env w)) =
    if strict_eq (code e) "permission-denied"
       || strict_eq (message e) "Unauthorized access"
    then "/admin/login" :: navigations (trace w)
    else navigations (trace w).
Proof.
  intros Hu Ha He. unfold after. run_handler.
  rewrite Hu. cbn beta iota. rewrite Ha. cbn [negb]. cbn beta iota.
  rewrite He. cbn beta iota.
  by destruct (strict_eq (code e) "permission-denied"),
       (strict_eq (message e) "Unauthorized access").
Qed.

(** C2. The failing input: the remote call of a mutation fails with an
    error whose code is permission-denied and whose message is not the
    sentinel.  Each of the three handlers shows the error toast and stays on
    the page; [loadBookings], given the same error, goes to the login
    page. *)
Theorem permission_denied_code_ignored_by_mutations :
  (forall m,
     let w' := after (handler m "1" first_row) (failing denied)
                 two_pending in
     navigations (trace w') = [] /\
     toasts (trace w') = [ToastError "Missing or insufficient permissions."]) /\
  navigations (trace (after loadBookings (failing denied) initial)) =
    ["/admin/login"].
Proof.
  split; [|reflexivity]. by intros [].
Qed.

(** ** Rejecting *)

(** C5. When the prompt of Reject returns null the whole operation stops
    there: no remote call, no notification of either kind, no navigation,
    and the booking store is as it was.  The prompt is the only thing the
    trace gains. *)
Theorem reject_cancelled_aborts i booking env w :
  prompted env "Please enter a reason for rejection:" = None ->
  let w' := after (handleReject i booking) env w in
  bookings w' = bookings w /\
  remote_calls (trace w') = remote_calls (trace w) /\
  toasts (trace w') = toasts (trace w) /\
  navigations (trace w') = navigations (trace w) /\
  trace w' = Prompt "Please enter a reason for rejection:" None :: trace w.
Proof.
  intros Hp w'. subst w'. unfold after.
  by rewrite (handleReject_cancelled _ _ _ _ Hp).
Qed.

(** C10. An empty string typed into the prompt is not a cancellation: the
    remote call is made with the empty reason and, when it succeeds, every
    record with the given id has status rejected and the empty string as
    its rejection reason, the other records being the same objects as
    before. *)
Theorem reject_with_empty_reason_proceeds i booking env w :
  prompted env "Please enter a reason for rejection:" = Some "" ->
  let w' := after (handleReject i booking) env w in
  remote_calls (trace w') =
    UpdateBookingStatus i "rejected" (Some "") :: remote_calls (trace w) /\
  (updated env i "rejected" (Some "") = inr tt ->
   toasts (trace w') =
     ToastSuccess "Booking rejected successfully" :: toasts (trace w) /\
   length (bookings w') = length (bookings w) /\
   forall k b, bookings w !! k = Some b ->
     (id (val b) = i ->
        exists b', bookings w' !! k = Some b' /\
                   id (val b') = i /\
                   status (val b') = "rejected" /\
                   rejectionReason (val b') = Some "") /\
     (id (val b) <> i -> bookings w' !! k = Some b)).
Proof.
  intros Hp w'. subst w'. unfold after.
  destruct (updated env i "rejected" (Some "")) as [[|e]|[]] eqn:Hu.
  - by rewrite (handleReject_rejects_nullish _ booking _ w _ Hp Hu).
  - rewrite (handleReject_fails _ booking _ w _ _ Hp Hu). cbn [snd].
    split; [|done].
    by destruct (strict_eq (message e) "Unauthorized access").
  - destruct (handleReject_succeeds _ booking _ w _ _ Hp Hu)
      as (l' & n' & -> & Hle & Hall & _).
    cbn [snd]. split; [done|]. intros _.
    split; [done|]. split; [symmetry; by eapply Forall2_length|].
    intros k b Hk.
    destruct (Forall2_lookup_l _ _ _ _ _ Hall Hk) as (b' & Hk' & Hrel).
    unfold patched_at in Hrel. split; intros Hid.
    + rewrite (eqb_id_true _ _ Hid) in Hrel. destruct Hrel as [Hv _].
      exists b'. rewrite Hv. by repeat split.
    + rewrite (eqb_id_false _ _ Hid) in Hrel. by subst b'.
Qed.

(** ** The view filter *)

Lemma status_matches_spec sf b :
  status_matches sf b = true <-> sf = "all" \/ status (val b) = sf.
Proof.
  unfold status_matches. rewrite orb_true_iff, !String.eqb_eq. done.
Qed.

(** [Array.prototype.filter] with the predicate of the JSX keeps exactly
    the records the status predicate lets through, in order. *)
Lemma array_filter_status sf (l : list Obj) :
  array_filter (status_matches sf) l =
    filter (fun b => sf = "all" \/ status (val b) = sf) l.
Proof.
  unfold array_filter. induction l as [|b l IH]; [done|].
  cbn [List.filter]. rewrite filter_cons, IH.
  destruct (status_matches sf b) eqn:Hm.
  - apply status_matches_spec in Hm. by rewrite decide_True.
  - rewrite decide_False; [done|].
    intros Hm'. apply status_matches_spec in Hm'. congruence.
Qed.

Lemma filter_all (l : list Obj) :
  filter (fun b => "all" = "all" \/ status (val b) = "all") l = l.
Proof.
  induction l as [|b l IH]; [done|].
  rewrite filter_cons_True; [|by left]. by rewrite IH.
Qed.

Lemma render_loaded env w :
  loading w = false ->
  exists table,
    render env w = (Normal (Dashboard table), w) /\
    props_bookings table =
      filter (fun b => statusFilter w = "all" \/ status (val b) = statusFilter w)
        (bookings w) /\
    props_globalFilter table = globalFilter w.
Proof.
  intros Hl. eexists. unfold render, bind, gets, ret. rewrite Hl.
  split; [reflexivity|]. cbn [props_bookings props_globalFilter].
  split; [apply array_filter_status | done].
Qed.

(** C6. Once loading is over and with the status filter on approved,
    whatever the query text [q], the render pass hands [BookingTable]
    exactly the records of the store whose status is approved, in store
    order; the query text is passed along untouched and the state is as it
    was. *)
Theorem approved_filter_ignores_query S q n t env :
  let w := mkWorld S false q "approved" n t in
  exists table,
    render env w = (Normal (Dashboard table), w) /\
    props_bookings table = filter (fun b => status (val b) = "approved") S /\
    props_bookings table `sublist_of` S /\
    (forall b, b ∈ props_bookings table <-> b ∈ S /\ status (val b) = "approved") /\
    props_globalFilter table = q.
Proof.
  intros w.
  destruct (render_loaded env w eq_refl) as (table & Hrun & Hb & Hq).
  exists table. cbn [statusFilter bookings globalFilter w] in Hb, Hq.
  assert (Heq : props_bookings table =
                filter (fun b => status (val b) = "approved") S).
  { rewrite Hb. apply list_filter_iff. intros b. split; [|by right].
    by intros [?|?]. }
  split; [done|]. split; [done|]. rewrite Heq.
  split; [apply sublist_filter|]. split; [|done].
  intros b. rewrite list_elem_of_filter. tauto.
Qed.

(** C7. Once loading is over, with an empty query and the status filter
    on all, the render pass hands [BookingTable] every record of the store,
    the same objects in the same order, and leaves the state, the store
    included, as it was. *)
Theorem all_filter_shows_store S n t env :
  let w := mkWorld S false "" "all" n t in
  exists table,
    render env w = (Normal (Dashboard table), w) /\
    props_bookings table = S /\
    props_globalFilter table = "" /\
    bookings (after render env w) = S.
Proof.
  intros w.
  destruct (render_loaded env w eq_refl) as (table & Hrun & Hb & Hq).
  exists table. cbn [statusFilter bookings globalFilter w] in Hb, Hq.
  split; [done|]. split.
  - rewrite Hb. apply filter_all.
  - split; [done|]. unfold after. by rewrite Hrun.
Qed.

(** ** The session guard and the initial load *)

Lemma loadBookings_no_user env w :
  currentUser env = None ->
  loadBookings env w =
    (Normal tt, put_loading false (emit (Navigate "/admin/login") w)).
Proof. intros Hu. run_handler. by rewrite Hu. Qed.

Lemma loadBookings_not_admin env w u :
  currentUser env = Some u -> admin env = false ->
  loadBookings env w =
    (Normal tt,
     put_loading false
       (emit (Navigate "/admin/login")
          (emit (ToastError "Unauthorized access") w))).
Proof.
  intros Hu Ha. run_handler. rewrite Hu. cbn beta iota. by rewrite Ha.
Qed.

Lemma loadBookings_fails env w u e :
  currentUser env = Some u -> admin env = true -> fetched env = inl (Raised e) ->
  loadBookings env w =
    (Normal tt,
     put_loading false
       (let w1 :=
          emit (ToastError (or_else (message e) "Failed to fetch bookings"))
            (emit (ConsoleError "Error fetching bookings:" (Raised e))
               (emit (Remote FetchBookings (Failed (Raised e))) w)) in
        if strict_eq (code e) "permission-denied"
           || strict_eq (message e) "Unauthorized access"
        then emit (Navigate "/admin/login") w1 else w1)).
Proof.
  intros Hu Ha He. run_handler.
  rewrite Hu. cbn beta iota. rewrite Ha. cbn [negb]. cbn beta iota.
  rewrite He. cbn beta iota.
  by destruct (strict_eq (code e) "permission-denied"),
       (strict_eq (message e) "Unauthorized access").
Qed.

Lemma loadBookings_rejects_nullish env w u :
  currentUser env = Some u -> admin env = true -> fetched env = inl Nullish ->
  loadBookings env w =
    (Throw (type_error env),
     put_loading false
       (emit (ConsoleError "Error fetching bookings:" Nullish)
          (emit (Remote FetchBookings (Failed Nullish)) w))).
Proof.
  intros Hu Ha He. run_handler.
  rewrite Hu. cbn beta iota. rewrite Ha. cbn [negb]. cbn beta iota.
  by rewrite He.
Qed.

(** The fetched array holds one new object per record, in order. *)
Lemma receive_spec data env w :
  exists l',
    receive data env w = (Normal l', put_next (next w + length data) w) /\
    val <$> l' = data /\
    addr <$> l' = seq (next w) (length data).
Proof.
  revert w. induction data as [|v rest IH]; intros w.
  - exists []. cbn. rewrite Nat.add_0_r, put_next_same. done.
  - cbn [receive]. unfold bind at 1. unfold new_object at 1.
    destruct (IH (put_next (S (next w)) w)) as (l' & Hrun & Hv & Ha).
    exists (mkObj (next w) v :: l').
    unfold bind. rewrite Hrun. unfold ret.
    cbn [next put_next length] in *. rewrite put_next_twice.
    split; [do 2 f_equal; lia|].
    split; cbn; by f_equal.
Qed.

Lemma loadBookings_succeeds env w u data :
  currentUser env = Some u -> admin env = true -> fetched env = inr data ->
  exists l',
    loadBookings env w =
      (Normal tt,
       put_loading false
         (put_bookings l'
            (put_next (next w + length data)
               (emit (Remote FetchBookings (Bookings data)) w)))) /\
    val <$> l' = data /\
    addr <$> l' = seq (next w) (length data).
Proof.
  intros Hu Ha He.
  destruct (receive_spec data env (emit (Remote FetchBookings (Bookings data)) w))
    as (l' & Hrun & Hv & Hd).
  exists l'. split; [|done]. run_handler.
  rewrite Hu. cbn beta iota. rewrite Ha. cbn [negb]. cbn beta iota.
  rewrite He. cbn beta iota. by rewrite Hrun.
Qed.

(** C8. On page activation without an authenticated principal the page
    goes to the login page and does nothing else: no fetch, no
    notification.  With a principal that is not an administrator it emits
    the Unauthorized access notification, then goes to the login page, again
    without fetching.  In both cases the handler completes normally and the
    store is untouched. *)
Theorem session_guard_redirects env w :
  currentUser env = None \/ admin env = false ->
  let w' := after loadBookings env w in
  fst (loadBookings env w) = Normal tt /\
  remote_calls (trace w') = remote_calls (trace w) /\
  bookings w' = bookings w /\
  trace w' =
    match currentUser env with
    | None => Navigate "/admin/login" :: trace w
    | Some _ =>
        Navigate "/admin/login" :: ToastError "Unauthorized access" :: trace w
    end.
Proof.
  intros Hguard w'. subst w'. unfold after.
  destruct (currentUser env) as [u|] eqn:Hu.
  - destruct Hguard as [|Ha]; [done|].
    by rewrite (loadBookings_not_admin _ _ _ Hu Ha).
  - by rewrite (loadBookings_no_user _ _ Hu).
Qed.

(** ** Rejection reasons along a run *)

Lemma consistent_neutral e l t :
  neutral e -> consistent l t -> consistent l (e :: t).
Proof.
  intros Hn Hc. destruct (Hn t) as [Hl Hr]. unfold consistent in *.
  rewrite Hl. eapply Forall2_impl; [exact Hc|].
  intros o b [? ?]. by rewrite Hr.
Qed.

Lemma consistent_fetched l data t :
  val <$> l = data ->
  consistent l (Remote FetchBookings (Bookings data) :: t).
Proof.
  intros <-. unfold consistent. cbn [loaded last_rejection].
  induction l as [|o l IH]; constructor; done.
Qed.

Lemma consistent_patched i f lo hi l l' t :
  with_rejectionReason f = None ->
  Forall2 (patched_at i f lo hi) l l' ->
  consistent l t -> consistent l' t.
Proof.
  intros Hf Hp Hc. unfold consistent in *.
  apply Forall2_same_length_lookup. split.
  { rewrite <- (Forall2_length _ _ _ Hp). by eapply Forall2_length. }
  intros k o' b Hk' Hkb.
  destruct (Forall2_lookup_r _ _ _ _ _ Hp Hk') as (o & Hk & Hrel).
  destruct (Forall2_lookup_lr _ _ _ _ _ _ Hc Hk Hkb) as [Hid Hr].
  unfold patched_at in Hrel.
  destruct (String.eqb (id (val o)) i); [|by subst o'].
  destruct Hrel as [-> _]. cbn. by rewrite Hf.
Qed.

Lemma consistent_rejected i reason lo hi l l' t :
  Forall2 (patched_at i (mkFields (Some "rejected") (Some reason) None) lo hi) l l' ->
  consistent l t ->
  consistent l' (Remote (UpdateBookingStatus i "rejected" (Some reason)) Done :: t).
Proof.
  intros Hp Hc. unfold consistent in *. cbn [loaded last_rejection].
  apply Forall2_same_length_lookup. split.
  { rewrite <- (Forall2_length _ _ _ Hp). by eapply Forall2_length. }
  intros k o' b Hk' Hkb.
  destruct (Forall2_lookup_r _ _ _ _ _ Hp Hk') as (o & Hk & Hrel).
  destruct (Forall2_lookup_lr _ _ _ _ _ _ Hc Hk Hkb) as [Hid Hr].
  unfold patched_at in Hrel. rewrite Hid in Hrel.
  rewrite (String.eqb_sym i (id b)), andb_true_r.
  destruct (String.eqb (id b) i).
  - destruct Hrel as [-> _]. done.
  - by subst o'.
Qed.

Lemma handleLogout_run env w :
  handleLogout env w =
    (Normal tt,
     match signedOut env with
     | inr _ => emit (Navigate "/admin/login") (emit (Remote SignOut Done) w)
     | inl e =>
         emit (ToastError "Failed to logout")
           (emit (Remote SignOut (Failed e)) w)
     end).
Proof. run_handler. by destruct (signedOut env). Qed.

Lemma steady_initial : steady initial.
Proof. split; constructor. Qed.

Lemma steady_load env w : steady w -> steady (after loadBookings env w).
Proof.
  intros [Hc Hs]. unfold after.
  destruct (currentUser env) as [u|] eqn:Hu.
  2:{ rewrite (loadBookings_no_user _ _ Hu). split; cbn.
      - apply consistent_neutral; [neutral_effect | done].
      - by constructor. }
  destruct (admin env) eqn:Ha.
  2:{ rewrite (loadBookings_not_admin _ _ _ Hu Ha). split; cbn.
      - do 2 (apply consistent_neutral; [neutral_effect|]). done.
      - by repeat constructor. }
  destruct (fetched env) as [[|e]|data] eqn:He.
  - rewrite (loadBookings_rejects_nullish _ _ _ Hu Ha He). split; cbn.
    + do 2 (apply consistent_neutral; [neutral_effect|]). done.
    + by repeat constructor.
  - rewrite (loadBookings_fails _ _ _ _ Hu Ha He). cbn [snd].
    destruct (strict_eq (code e) "permission-denied"
              || strict_eq (message e) "Unauthorized access"); split; cbn.
    + do 4 (apply consistent_neutral; [neutral_effect|]). done.
    + by repeat constructor.
    + do 3 (apply consistent_neutral; [neutral_effect|]). done.
    + by repeat constructor.
  - destruct (loadBookings_succeeds _ w _ _ Hu Ha He) as (l' & -> & Hv & _).
    split; cbn.
    + by apply consistent_fetched.
    + by constructor.
Qed.

Lemma steady_mutation_failure m i booking env w v :
  remote_fails m i env v -> steady w -> steady (after (handler m i booking) env w).
Proof.
  intros Hfail [Hc Hs]. unfold after. destruct v as [|e].
  { destruct m; cbn [remote_fails handler] in *.
    - rewrite (handleApprove_rejects_nullish _ _ _ _ Hfail). split; cbn.
      + do 2 (apply consistent_neutral; [neutral_effect|]). done.
      + by repeat constructor.
    - destruct Hfail as (reason & Hp & He).
      rewrite (handleReject_rejects_nullish _ _ _ _ _ Hp He). split; cbn.
      + do 3 (apply consistent_neutral; [neutral_effect|]). done.
      + repeat constructor; try done. by intros _; eexists.
    - rewrite (handleGenerateMeetLink_rejects_nullish _ _ _ _ Hfail). split; cbn.
      + do 2 (apply consistent_neutral; [neutral_effect|]). done.
      + by repeat constructor. }
  destruct m; cbn [remote_fails handler] in *.
  - rewrite (handleApprove_fails _ _ _ _ _ Hfail). cbn [snd].
    destruct (strict_eq (message e) "Unauthorized access"); split; cbn.
    + do 4 (apply consistent_neutral; [neutral_effect|]). done.
    + by repeat constructor.
    + do 3 (apply consistent_neutral; [neutral_effect|]). done.
    + by repeat constructor.
  - destruct Hfail as (reason & Hp & He).
    rewrite (handleReject_fails _ _ _ _ _ _ Hp He). cbn [snd].
    destruct (strict_eq (message e) "Unauthorized access"); split; cbn.
    + do 5 (apply consistent_neutral; [neutral_effect|]). done.
    + repeat constructor; try done. by intros _; eexists.
    + do 4 (apply consistent_neutral; [neutral_effect|]). done.
    + repeat constructor; try done. by intros _; eexists.
  - rewrite (handleGenerateMeetLink_fails _ _ _ _ _ Hfail). cbn [snd].
    destruct (strict_eq (message e) "Unauthorized access"); split; cbn.
    + do 4 (apply consistent_neutral; [neutral_effect|]). done.
    + by repeat constructor.
    + do 3 (apply consistent_neutral; [neutral_effect|]). done.
    + by repeat constructor.
Qed.

Lemma steady_step a env w : steady w -> steady (after (perform a) env w).
Proof.
  intros Hw. destruct a as [|m i booking| | |]; cbn [perform].
  - by apply steady_load.
  - destruct m; cbn [handler].
    + destruct (updated env i "approved" None) as [e|u] eqn:Hu.
      { by apply (steady_mutation_failure Approve _ _ _ _ e). }
      destruct Hw as [Hc Hs]. unfold after.
      destruct (handleApprove_succeeds _ booking _ w _ Hu)
        as (l' & n' & -> & _ & Hall & _).
      split; cbn.
      * apply consistent_neutral; [neutral_effect|].
        apply consistent_neutral; [neutral_effect|].
        by eapply consistent_patched; [|exact Hall|].
      * by repeat constructor.
    + destruct (prompted env "Please enter a reason for rejection:")
        as [reason|] eqn:Hp.
      2:{ destruct Hw as [Hc Hs]. unfold after.
          rewrite (handleReject_cancelled _ _ _ _ Hp). split; cbn.
          - apply consistent_neutral; [neutral_effect | done].
          - by constructor. }
      destruct (updated env i "rejected" (Some reason)) as [e|u] eqn:Hu.
      { apply (steady_mutation_failure Reject _ _ _ _ e); [|done].
        by exists reason. }
      destruct Hw as [Hc Hs]. unfold after.
      destruct (handleReject_succeeds _ booking _ w _ _ Hp Hu)
        as (l' & n' & -> & _ & Hall & _).
      split; cbn.
      * apply consistent_neutral; [neutral_effect|].
        eapply consistent_rejected; [exact Hall|].
        apply consistent_neutral; [neutral_effect | done].
      * repeat constructor; try done. by intros _; eexists.
    + destruct (generated env i) as [e|url] eqn:Hu.
      { by apply (steady_mutation_failure GenerateMeetingLinkFor _ _ _ _ e). }
      destruct Hw as [Hc Hs]. unfold after.
      destruct (handleGenerateMeetLink_succeeds _ booking _ w _ Hu)
        as (l' & n' & -> & _ & Hall & _).
      split; cbn.
      * apply consistent_neutral; [neutral_effect|].
        apply consistent_neutral; [neutral_effect|].
        by eapply consistent_patched; [|exact Hall|].
      * by repeat constructor.
  - destruct Hw as [Hc Hs]. unfold after. rewrite handleLogout_run.
    destruct (signedOut env); split; cbn.
    + do 2 (apply consistent_neutral; [neutral_effect|]). done.
    + by repeat constructor.
    + do 2 (apply consistent_neutral; [neutral_effect|]). done.
    + by repeat constructor.
  - done.
  - done.
Qed.

Lemma reachable_steady w : reachable w -> steady w.
Proof.
  induction 1 as [|a env w _ IH]; [apply steady_initial | by apply steady_step].
Qed.

Lemma reachable_run script w : reachable w -> reachable (run script w).
Proof.
  revert w. induction script as [|[a env] rest IH]; intros w Hw; [done|].
  cbn [run]. apply IH. by constructor.
Qed.

(** When every rejection sent carries a reason, a most recent transition to
    rejected is the latest confirmed rejection. *)
Lemma last_transition_rejected t i x :
  Forall sends_reason t ->
  last_transition t i = Some ("rejected", x) ->
  exists r, x = Some r /\ last_rejection t i = Some r.
Proof.
  induction 1 as [|e t He _ IH]; [done|].
  destruct e as [q r| | | | |]; cbn [last_transition last_rejection]; try done.
  destruct q as [|j target reason| |]; try done.
  - destruct r; done.
  - destruct r; try (destruct reason; done).
    destruct (String.eqb j i) eqn:Hj.
    + intros [= -> ->]. destruct (He eq_refl) as [r ->].
      by exists r.
    + intros Hl. destruct reason; cbn [andb]; by apply IH.
Qed.

(** C9, as amended.  In every reachable state the store lines up with the
    fetched records, and the rejection reason of a record is the reason
    supplied with the latest confirmed rejection of its id since the fetch,
    whether or not that was the most recent transition (an approval
    afterwards leaves it in place), and the reason the record was fetched
    with when no rejection was confirmed.  Hence a record carries a
    rejection reason exactly when it was fetched with one or a rejection of
    its id has been confirmed since the fetch; and when the most recent
    transition was to rejected, the reason is the one supplied with it. *)
Theorem reason_kept_after_rejection w :
  reachable w ->
  reason_since_fetch w.
Proof.
  intros Hw. destruct (reachable_steady w Hw) as [Hc Hs].
  unfold reason_since_fetch, consistent in *.
  split; [by eapply Forall2_length|].
  intros k o Hk.
  destruct (Forall2_lookup_l _ _ _ _ _ Hc Hk) as (b & Hkb & Hid & Hr).
  exists b. split; [done|]. split; [done|]. split; [done|]. split.
  - rewrite Hr. destruct (last_rejection (trace w) (id b)) as [r|].
    + split; [intros _; left|]; by eexists.
    + split; [by right|]. intros [[? [=]]|]; done.
  - intros x Hx.
    destruct (last_transition_rejected _ _ _ Hs Hx) as (r & -> & Hlast).
    split; [by eexists|]. by rewrite Hr, Hlast.
Qed.

(** C9, as stated, fails: after a fetch, a confirmed rejection of record 1
    and a confirmed approval of the same record, the record is approved and
    still carries the rejection reason. *)
Lemma approval_keeps_rejection_reason :
  reachable rejected_then_approved /\
  ~ reason_iff_last_rejected rejected_then_approved.
Proof.
  split; [apply reachable_run, reachable_initial|].
  intros Hiff.
  destruct (Hiff (mkObj 3 (spread (spread (pending "1")
                                     (mkFields (Some "rejected") (Some "schedule conflict") None))
                             (mkFields (Some "approved") None None)))) as [Hto _].
  { vm_compute. apply list_elem_of_here. }
  destruct Hto as [reason Hreason]; [by eexists|].
  vm_compute in Hreason. discriminate.
Qed.

(** ** Object identity along a run *)

Lemma received_distinct n (l : list Obj) k :
  addr <$> l = seq n k -> distinct_below (n + k) l.
Proof.
  intros Hl. split.
  - apply (Forall_fmap addr (fun a => a < n + k)). rewrite Hl.
    apply Forall_seq. intros; lia.
  - rewrite Hl. apply NoDup_seq.
Qed.

Lemma allocated_load env w : allocated w -> allocated (after loadBookings env w).
Proof.
  intros Hw. unfold after.
  destruct (currentUser env) as [u|] eqn:Hu.
  2:{ by rewrite (loadBookings_no_user _ _ Hu). }
  destruct (admin env) eqn:Ha.
  2:{ by rewrite (loadBookings_not_admin _ _ _ Hu Ha). }
  destruct (fetched env) as [[|e]|data] eqn:He.
  - by rewrite (loadBookings_rejects_nullish _ _ _ Hu Ha He).
  - rewrite (loadBookings_fails _ _ _ _ Hu Ha He). cbn [snd].
    by destruct (strict_eq (code e) "permission-denied"
                 || strict_eq (message e) "Unauthorized access").
  - destruct (loadBookings_succeeds _ w _ _ Hu Ha He) as (l' & -> & _ & Hd).
    by apply received_distinct.
Qed.

Lemma allocated_mutation_failure m i booking env w v :
  remote_fails m i env v ->
  allocated w -> allocated (after (handler m i booking) env w).
Proof.
  intros Hfail Hw. unfold after. destruct v as [|e].
  { destruct (mutation_failure_nullish m i booking env w Hfail)
      as (w' & -> & Hb & Hn & _).
    unfold allocated in *. cbn [snd]. by rewrite Hb, Hn. }
  destruct (mutation_failure m i booking env w e Hfail)
    as (call & -> & Hb & Hn & _). cbn [snd].
  unfold allocated in *.
  destruct (strict_eq (message e) "Unauthorized access");
    cbn [next bookings emit]; by rewrite Hb, Hn.
Qed.

Lemma allocated_step a env w : allocated w -> allocated (after (perform a) env w).
Proof.
  intros Hw. destruct a as [|m i booking| | |]; cbn [perform].
  - by apply allocated_load.
  - destruct m; cbn [handler].
    + destruct (updated env i "approved" None) as [e|u] eqn:Hu.
      { by apply (allocated_mutation_failure Approve _ _ _ _ e). }
      unfold after.
      destruct (handleApprove_succeeds _ booking _ w _ Hu)
        as (l' & n' & -> & _ & _ & Hdist).
      by apply Hdist.
    + destruct (prompted env "Please enter a reason for rejection:")
        as [reason|] eqn:Hp.
      2:{ unfold after. by rewrite (handleReject_cancelled _ _ _ _ Hp). }
      destruct (updated env i "rejected" (Some reason)) as [e|u] eqn:Hu.
      { apply (allocated_mutation_failure Reject _ _ _ _ e); [|done].
        by exists reason. }
      unfold after.
      destruct (handleReject_succeeds _ booking _ w _ _ Hp Hu)
        as (l' & n' & -> & _ & _ & Hdist).
      by apply Hdist.
    + destruct (generated env i) as [e|url] eqn:Hu.
      { by apply (allocated_mutation_failure GenerateMeetingLinkFor _ _ _ _ e). }
      unfold after.
      destruct (handleGenerateMeetLink_succeeds _ booking _ w _ Hu)
        as (l' & n' & -> & _ & _ & Hdist).
      by apply Hdist.
  - unfold after. rewrite handleLogout_run. by destruct (signedOut env).
  - done.
  - done.
Qed.

(** In every reachable state the positions of the store hold pairwise
    different objects, all allocated earlier: comparing two records of the
    store by identity is comparing their addresses. *)
Lemma reachable_allocated w : reachable w -> allocated w.
Proof.
  induction 1 as [|a env w _ IH]; [|by apply allocated_step].
  split; constructor.
Qed.

(** In a reachable state, the object the patch puts in place of a record
    with the patched id is none of the objects of the store before. *)
Lemma patched_record_is_new i f env w k b b' :
  reachable w ->
  bookings w !! k = Some b -> id (val b) = i ->
  bookings (after (setBookings (patch i f)) env w) !! k = Some b' ->
  forall o, o ∈ bookings w -> addr o <> addr b'.
Proof.
  intros Hw Hk Hid. unfold after.
  destruct (setBookings_patch i f env w) as (l' & n' & -> & _ & Hall & _).
  cbn [snd bookings put_bookings]. intros Hk' o Ho.
  pose proof (Forall2_lookup_lr _ _ _ _ _ _ Hall Hk Hk') as Hrel.
  unfold patched_at in Hrel. rewrite (eqb_id_true _ _ Hid) in Hrel.
  destruct Hrel as [_ Hfresh].
  destruct (reachable_allocated w Hw) as [Hbound _].
  rewrite Forall_forall in Hbound. specialize (Hbound o Ho). cbn in Hbound. lia.
Qed.

(** * Further properties *)

(** ** One step of the page *)

Lemma grown_here (t : list Effect) : t = ([] ++ t)%list.
Proof. done. Qed.

Lemma grown_more e (t' new t : list Effect) :
  t' = (new ++ t)%list -> e :: t' = ((e :: new) ++ t)%list.
Proof. by intros ->. Qed.

Ltac grown := cbn; repeat (apply grown_more); apply grown_here.

Ltac modest_trace := repeat split; cbn; try lia; repeat constructor.

Ltac settled :=
  right; split; [|reflexivity];
  cbn [nullish_rejection remote_fails];
  first [ tauto
        | intros ([? ?] & ? & ?); congruence
        | intros (? & ? & ?); congruence
        | congruence ].

Ltac summed :=
  eexists _, _, _; split; [reflexivity|];
  split; [grown|]; split; [modest_trace|];
  split; [first [by left | by right]|];
  split; [by apply store_kept | settled].

(** Every step yields a state described by [store_step], a loading flag
    that is false or untouched, and a trace that has grown by a [modest]
    list of effects; it ends by throwing exactly in the case of a
    [nullish_rejection], and normally otherwise. *)
Lemma step_summary a env w :
  exists new w' c,
    perform a env w = (c, w') /\
    trace w' = (new ++ trace w)%list /\
    modest new /\
    (loading w' = false \/ (a <> Mount /\ loading w' = loading w)) /\
    store_step env a w w' /\
    (nullish_rejection a env /\ c = Throw (type_error env) \/
     ~ nullish_rejection a env /\ c = Normal tt).
Proof.
  destruct a as [|m i booking| |q|sf]; cbn [perform].
  - destruct (currentUser env) as [u|] eqn:Hu.
    2:{ rewrite (loadBookings_no_user _ w Hu). summed. }
    destruct (admin env) eqn:Ha.
    2:{ rewrite (loadBookings_not_admin _ w _ Hu Ha). summed. }
    destruct (fetched env) as [[|e]|data] eqn:He.
    + rewrite (loadBookings_rejects_nullish _ w _ Hu Ha He).
      eexists _, _, _. split; [reflexivity|].
      split; [grown|]. split; [modest_trace|]. split; [by left|].
      split; [by apply store_kept|]. left. by repeat split.
    + rewrite (loadBookings_fails _ w _ _ Hu Ha He).
      destruct (strict_eq (code e) "permission-denied"
                || strict_eq (message e) "Unauthorized access");
        summed.
    + destruct (loadBookings_succeeds _ w _ _ Hu Ha He) as (l' & -> & Hv & _).
      eexists _, _, _. split; [reflexivity|].
      split; [grown|]. split; [modest_trace|]. split; [by left|].
      split; [by eapply store_loaded | settled].
  - destruct m; cbn [handler].
    + destruct (updated env i "approved" None) as [[|e]|u] eqn:Hu.
      * rewrite (handleApprove_rejects_nullish _ booking _ w Hu).
        eexists _, _, _. split; [reflexivity|].
        split; [grown|]. split; [modest_trace|]. split; [by right|].
        split; [by apply store_kept|]. by left.
      * rewrite (handleApprove_fails _ booking _ w _ Hu).
        destruct (strict_eq (message e) "Unauthorized access");
          summed.
      * destruct (handleApprove_succeeds _ booking _ w _ Hu)
          as (l' & n' & -> & _ & Hall & _).
        eexists _, _, _. split; [reflexivity|].
        split; [grown|]. split; [modest_trace|]. split; [by right|].
        split; [by eapply store_patched | settled].
    + destruct (prompted env "Please enter a reason for rejection:")
        as [reason|] eqn:Hp.
      2:{ rewrite (handleReject_cancelled _ booking _ w Hp).
          summed. }
      destruct (updated env i "rejected" (Some reason)) as [[|e]|u] eqn:Hu.
      * rewrite (handleReject_rejects_nullish _ booking _ w _ Hp Hu).
        eexists _, _, _. split; [reflexivity|].
        split; [grown|]. split; [modest_trace|]. split; [by right|].
        split; [by apply store_kept|]. left. split; [by exists reason | done].
      * rewrite (handleReject_fails _ booking _ w _ _ Hp Hu).
        destruct (strict_eq (message e) "Unauthorized access");
          summed.
      * destruct (handleReject_succeeds _ booking _ w _ _ Hp Hu)
          as (l' & n' & -> & _ & Hall & _).
        eexists _, _, _. split; [reflexivity|].
        split; [grown|]. split; [modest_trace|]. split; [by right|].
        split; [by eapply store_patched | settled].
    + destruct (generated env i) as [[|e]|url] eqn:Hu.
      * rewrite (handleGenerateMeetLink_rejects_nullish _ booking _ w Hu).
        eexists _, _, _. split; [reflexivity|].
        split; [grown|]. split; [modest_trace|]. split; [by right|].
        split; [by apply store_kept|]. by left.
      * rewrite (handleGenerateMeetLink_fails _ booking _ w _ Hu).
        destruct (strict_eq (message e) "Unauthorized access");
          summed.
      * destruct (handleGenerateMeetLink_succeeds _ booking _ w _ Hu)
          as (l' & n' & -> & _ & Hall & _).
        eexists _, _, _. split; [reflexivity|].
        split; [grown|]. split; [modest_trace|]. split; [by right|].
        split; [by eapply store_patched | settled].
  - rewrite handleLogout_run. destruct (signedOut env); summed.
  - exists [], (put_globalFilter q w), (Normal tt). split; [done|].
    split; [done|]. split; [modest_trace|]. split; [by right|].
    split; [by apply store_kept | settled].
  - exists [], (put_statusFilter sf w), (Normal tt). split; [done|].
    split; [done|]. split; [modest_trace|]. split; [by right|].
    split; [by apply store_kept | settled].
Qed.

(** X1. A handler lets an error escape in exactly one situation: the
    awaited call of [loadBookings] or of a mutation rejects with null or
    undefined.  The catch block then throws while reading [error.message],
    before any toast or navigation, and the handler ends with that error.
    In every other case, failed remote calls included, the mount effect,
    the three mutations, the logout and the filter setters complete
    normally. *)
Theorem handler_throws_only_on_nullish_rejection a env w :
  let w' := after (perform a) env w in
  (nullish_rejection a env ->
     fst (perform a env w) = Throw (type_error env) /\
     toasts (trace w') = toasts (trace w) /\
     navigations (trace w') = navigations (trace w) /\
     bookings w' = bookings w) /\
  (~ nullish_rejection a env -> fst (perform a env w) = Normal tt).
Proof.
  intros w'. subst w'. split.
  - destruct a as [|m i booking| | |]; cbn [nullish_rejection perform]; try done.
    + intros ([u Hu] & Ha & He). unfold after.
      by rewrite (loadBookings_rejects_nullish _ w _ Hu Ha He).
    + intros Hfail. unfold after.
      destruct (mutation_failure_nullish m i booking env w Hfail)
        as (w' & -> & Hb & _ & _ & Ht & Hn).
      done.
  - intros Hnot.
    destruct (step_summary a env w) as (new & w' & c & -> & _ & _ & _ & _ & Hc).
    by destruct Hc as [[? _]|[_ ->]].
Qed.

(** X2. A step never retries and never piles up notifications: it adds to the
    trace at most one remote call and at most one toast, and the only place
    it navigates to is the login page. *)
Theorem step_adds_one_call_one_toast a env w :
  exists new,
    trace (after (perform a) env w) = (new ++ trace w)%list /\
    length (remote_calls new) <= 1 /\
    length (toasts new) <= 1 /\
    Forall (fun p => p = "/admin/login") (navigations new).
Proof.
  unfold after.
  destruct (step_summary a env w) as (new & w' & c & -> & Ht & Hm & _).
  by exists new.
Qed.

Lemma loading_stays_false a env w :
  loading w = false -> loading (after (perform a) env w) = false.
Proof.
  intros Hl. unfold after.
  destruct (step_summary a env w) as (new & w' & c & -> & _ & _ & Hload & _).
  cbn [snd]. destruct Hload as [|[_ ->]]; done.
Qed.

(** [loadBookings] switches the loading flag off on each of its five paths:
    no user, not an administrator, failed fetch with or without redirect,
    and successful fetch. *)
Lemma mount_ends_loading env w :
  loading (after loadBookings env w) = false.
Proof.
  unfold after.
  destruct (step_summary Mount env w) as (new & w' & c & Hrun & _ & _ & Hload & _).
  cbn [perform] in Hrun. rewrite Hrun.
  by destruct Hload as [|[? _]].
Qed.

(** X3. Once the mount effect has run, the page renders the dashboard and never
    the spinner again, whatever is done next; this includes the runs in
    which the session guard has sent the visitor to the login page. *)
Theorem spinner_never_returns env0 w script env :
  let w' := run script (after loadBookings env0 w) in
  exists table, render env w' = (Normal (Dashboard table), w').
Proof.
  intros w'.
  assert (Hl : loading w' = false).
  { subst w'. generalize (mount_ends_loading env0 w).
    generalize (after loadBookings env0 w). clear.
    induction script as [|[a e] rest IH]; intros w0 Hw0; [done|].
    cbn [run]. apply IH. by apply loading_stays_false. }
  destruct (render_loaded env w' Hl) as (table & Hrun & _).
  by exists table.
Qed.

Lemma patched_at_same_id i f lo hi b b' :
  patched_at i f lo hi b b' ->
  id (val b') = id (val b) /\ details (val b') = details (val b) /\
  (is_Some (meetingLink (val b)) -> is_Some (meetingLink (val b'))).
Proof.
  unfold patched_at. destruct (String.eqb (id (val b)) i).
  - intros [-> _]. cbn. split; [done|]. split; [done|].
    by destruct (with_meetingLink f).
  - by intros ->.
Qed.

(** X4. Apart from the mount effect, nothing adds, removes or reorders
    records, and nothing changes the id or the descriptive fields of a
    record. *)
Theorem steps_keep_ids_and_details a env w :
  a <> Mount ->
  let w' := after (perform a) env w in
  (fun o => id (val o)) <$> bookings w' = (fun o => id (val o)) <$> bookings w /\
  (fun o => details (val o)) <$> bookings w' =
    (fun o => details (val o)) <$> bookings w /\
  length (bookings w') = length (bookings w).
Proof.
  intros Ha w'. subst w'. unfold after.
  destruct (step_summary a env w) as (new & w' & c & -> & _ & _ & _ & Hstore & _).
  cbn [snd]. destruct Hstore as [-> | i f lo hi _ Hall | data Hm _ _]; try done.
  split; [|split].
  - induction Hall as [|b b' l l' Hb _ IH]; [done|].
    rewrite !fmap_cons, IH. f_equal. by apply patched_at_same_id in Hb as [? _].
  - induction Hall as [|b b' l l' Hb _ IH]; [done|].
    rewrite !fmap_cons, IH. f_equal.
    by apply patched_at_same_id in Hb as (_ & ? & _).
  - symmetry. by eapply Forall2_length.
Qed.

(** X5. Apart from the mount effect, no step clears a meeting link: a record
    that has one keeps having one, at the same position of the store. *)
Theorem meeting_link_never_cleared a env w k o :
  a <> Mount ->
  bookings w !! k = Some o ->
  is_Some (meetingLink (val o)) ->
  exists o', bookings (after (perform a) env w) !! k = Some o' /\
             is_Some (meetingLink (val o')).
Proof.
  intros Ha Hk Hlink. unfold after.
  destruct (step_summary a env w) as (new & w' & c & -> & _ & _ & _ & Hstore & _).
  cbn [snd]. destruct Hstore as [-> | i f lo hi _ Hall | data Hm _ _]; try done.
  - by exists o.
  - destruct (Forall2_lookup_l _ _ _ _ _ Hall Hk) as (o' & Hk' & Hrel).
    exists o'. split; [done|].
    by apply patched_at_same_id in Hrel as (_ & _ & Hkeep); apply Hkeep.
Qed.

Lemma navigations_app (t1 t2 : list Effect) :
  navigations (t1 ++ t2) = (navigations t1 ++ navigations t2)%list.
Proof. unfold navigations. apply omap_app. Qed.

(** X6. Along every run the only place the page ever navigates to is the login
    page. *)
Theorem navigation_only_to_login w :
  reachable w ->
  Forall (fun p => p = "/admin/login") (navigations (trace w)).
Proof.
  induction 1 as [|a env w _ IH]; [constructor|].
  unfold after.
  destruct (step_summary a env w) as (new & w' & c & -> & Ht & (_ & _ & Hn) & _).
  cbn [snd]. rewrite Ht, navigations_app. by apply Forall_app.
Qed.

(** ** The initial load *)

Lemma strict_eq_spec x s : strict_eq x s = true <-> x = Some s.
Proof.
  destruct x as [m|]; cbn; [|done].
  rewrite String.eqb_eq. split; [by intros -> | by intros [= ->]].
Qed.

(** X7. For an administrator whose fetch succeeds, [loadBookings] replaces
    whatever the store held by the fetched records, in the order delivered,
    ends loading, and does nothing else visible: one fetch, no toast, no
    navigation. *)
Theorem load_replaces_store env w u data :
  currentUser env = Some u -> admin env = true -> fetched env = inr data ->
  let w' := after loadBookings env w in
  val <$> bookings w' = data /\
  loading w' = false /\
  trace w' = Remote FetchBookings (Bookings data) :: trace w.
Proof.
  intros Hu Ha He w'. subst w'. unfold after.
  by destruct (loadBookings_succeeds _ w _ _ Hu Ha He) as (l' & -> & Hv & _).
Qed.

(** X8. For an administrator whose fetch fails, [loadBookings] keeps the
    store and ends loading.  When the value the fetch rejects with is
    anything but null or undefined, it completes normally, shows one error
    toast (the message of the error, or Failed to fetch bookings when the
    message is absent or empty) and goes to the login page exactly when the
    error has the permission-denied code or the sentinel message.  When the
    value is null or undefined, reading its [message] throws in the catch
    block: no toast, no navigation, and [loadBookings] ends with that error,
    after the [finally] block has ended loading. *)
Theorem load_failure_reported env w u v :
  currentUser env = Some u -> admin env = true -> fetched env = inl v ->
  let w' := after loadBookings env w in
  bookings w' = bookings w /\
  loading w' = false /\
  remote_calls (trace w') = FetchBookings :: remote_calls (trace w) /\
  match v with
  | Raised e =>
      fst (loadBookings env w) = Normal tt /\
      (exists text,
         toasts (trace w') = ToastError text :: toasts (trace w) /\
         (forall s, message e = Some s -> s <> "" -> text = s) /\
         (message e = None \/ message e = Some "" ->
          text = "Failed to fetch bookings")) /\
      (code e = Some "permission-denied" \/
       message e = Some "Unauthorized access" ->
       navigations (trace w') = "/admin/login" :: navigations (trace w)) /\
      (code e <> Some "permission-denied" ->
       message e <> Some "Unauthorized access" ->
       navigations (trace w') = navigations (trace w))
  | Nullish =>
      fst (loadBookings env w) = Throw (type_error env) /\
      toasts (trace w') = toasts (trace w) /\
      navigations (trace w') = navigations (trace w)
  end.
Proof.
  intros Hu Ha He w'. subst w'. unfold after. destruct v as [|e].
  { by rewrite (loadBookings_rejects_nullish _ w _ Hu Ha He). }
  rewrite (loadBookings_fails _ w _ _ Hu Ha He). cbn [fst snd].
  assert (Htext : exists text,
            ToastError (or_else (message e) "Failed to fetch bookings") =
              ToastError text /\
            (forall s, message e = Some s -> s <> "" -> text = s) /\
            (message e = None \/ message e = Some "" ->
             text = "Failed to fetch bookings")).
  { eexists. split; [reflexivity | apply or_else_spec]. }
  destruct Htext as (text & Htext & Hspec).
  destruct (strict_eq (code e) "permission-denied"
            || strict_eq (message e) "Unauthorized access") eqn:Hgo.
  - split; [done|]. split; [done|]. split; [done|]. split; [done|].
    split; [exists text; by cbn; rewrite Htext|]. split; [done|].
    intros Hc Hm. apply orb_true_iff in Hgo as [H|H];
      apply strict_eq_spec in H; done.
  - split; [done|]. split; [done|]. split; [done|]. split; [done|].
    split; [exists text; by cbn; rewrite Htext|]. split; [|done].
    apply orb_false_iff in Hgo as [Hc Hm].
    intros [H|H]; apply strict_eq_spec in H; congruence.
Qed.

(** ** Logging out *)

(** X9. [handleLogout] makes the sign-out call and nothing else remote, and
    never touches the store.  When the call succeeds it goes to the login
    page without a toast; when it fails it stays, and shows the fixed text
    Failed to logout whatever the error says, the sentinel message
    included. *)
Theorem logout_outcomes env w :
  let w' := after handleLogout env w in
  bookings w' = bookings w /\
  remote_calls (trace w') = SignOut :: remote_calls (trace w) /\
  match signedOut env with
  | inr _ =>
      navigations (trace w') = "/admin/login" :: navigations (trace w) /\
      toasts (trace w') = toasts (trace w)
  | inl _ =>
      navigations (trace w') = navigations (trace w) /\
      toasts (trace w') = ToastError "Failed to logout" :: toasts (trace w)
  end.
Proof.
  intros w'. subst w'. unfold after. rewrite handleLogout_run.
  by destruct (signedOut env).
Qed.

(** ** Confirmed mutations *)

Lemma patched_values i f lo hi l l' :
  Forall2 (patched_at i f lo hi) l l' ->
  val <$> l' = patched_value i f <$> (val <$> l).
Proof.
  induction 1 as [|b b' l l' Hb _ IH]; [done|].
  rewrite !fmap_cons, IH. f_equal.
  unfold patched_at in Hb. unfold patched_value.
  destruct (String.eqb (id (val b)) i); [by destruct Hb | by subst].
Qed.

Lemma mutation_success m i booking env w f :
  remote_succeeds m i env f ->
  exists l' n' call,
    handler m i booking env w =
      (Normal tt,
       emit (ToastSuccess (success_text m)) (put_bookings l' (put_next n' call))) /\
    Forall2 (patched_at i f (next w) n') (bookings w) l' /\
    toasts (trace call) = toasts (trace w) /\
    navigations (trace call) = navigations (trace w).
Proof.
  destruct m; cbn [remote_succeeds handler success_text].
  - intros [Hu ->].
    destruct (handleApprove_succeeds _ booking _ w _ Hu)
      as (l' & n' & Hrun & _ & Hall & _).
    by eexists l', n', _.
  - intros (reason & Hp & Hu & ->).
    destruct (handleReject_succeeds _ booking _ w _ _ Hp Hu)
      as (l' & n' & Hrun & _ & Hall & _).
    by eexists l', n', _.
  - intros (url & Hu & ->).
    destruct (handleGenerateMeetLink_succeeds _ booking _ w _ Hu)
      as (l' & n' & Hrun & _ & Hall & _).
    by eexists l', n', _.
Qed.

Lemma mutation_success_values m i booking env w f :
  remote_succeeds m i env f ->
  val <$> bookings (after (handler m i booking) env w) =
    patched_value i f <$> (val <$> bookings w).
Proof.
  intros Hok. unfold after.
  destruct (mutation_success m i booking env w f Hok)
    as (l' & n' & call & -> & Hall & _).
  cbn [snd bookings emit put_bookings]. by eapply patched_values.
Qed.

(** X10. A confirmed mutation rewrites the store record by record and in
    place.  A record with another id keeps its value.  A record with the
    given id keeps its id and descriptive fields and, after Approve, has
    status approved with its rejection reason and meeting link as before;
    after Reject, has status rejected and the reason typed into the prompt,
    with its meeting link as before; after GenerateMeetingLink, has the
    link the call returned, with its status and rejection reason as before.
    The handler shows the success toast of the mutation and does not
    navigate. *)
Theorem mutation_success_patches_store m i booking env w f :
  remote_succeeds m i env f ->
  let w' := after (handler m i booking) env w in
  length (bookings w') = length (bookings w) /\
  toasts (trace w') = ToastSuccess (success_text m) :: toasts (trace w) /\
  navigations (trace w') = navigations (trace w) /\
  forall k b, bookings w !! k = Some b ->
    exists b',
      bookings w' !! k = Some b' /\
      id (val b') = id (val b) /\
      details (val b') = details (val b) /\
      (id (val b) <> i -> val b' = val b) /\
      (id (val b) = i ->
       match m with
       | Approve =>
           status (val b') = "approved" /\
           rejectionReason (val b') = rejectionReason (val b) /\
           meetingLink (val b') = meetingLink (val b)
       | Reject =>
           status (val b') = "rejected" /\
           rejectionReason (val b') =
             prompted env "Please enter a reason for rejection:" /\
           meetingLink (val b') = meetingLink (val b)
       | GenerateMeetingLinkFor =>
           (exists url, generated env i = inr url /\
                        meetingLink (val b') = Some url) /\
           status (val b') = status (val b) /\
           rejectionReason (val b') = rejectionReason (val b)
       end).
Proof.
  intros Hok w'. subst w'. unfold after.
  destruct (mutation_success m i booking env w f Hok)
    as (l' & n' & call & -> & Hall & Ht & Hn).
  cbn [snd bookings emit put_bookings].
  split; [symmetry; by eapply Forall2_length|]. split.
  { unfold toasts in *. cbn [trace emit put_bookings put_next List.filter].
    by rewrite Ht. }
  split; [done|].
  intros k b Hk.
  destruct (Forall2_lookup_l _ _ _ _ _ Hall Hk) as (b' & Hk' & Hrel).
  exists b'. split; [done|].
  destruct (patched_at_same_id _ _ _ _ _ _ Hrel) as (Hid' & Hdet & _).
  split; [done|]. split; [done|].
  unfold patched_at in Hrel. split; intros Hid.
  - rewrite (eqb_id_false _ _ Hid) in Hrel. by subst b'.
  - rewrite (eqb_id_true _ _ Hid) in Hrel. destruct Hrel as [Hv _].
    rewrite Hv.
    destruct m; cbn [remote_succeeds] in Hok.
    + destruct Hok as [_ ->]. done.
    + destruct Hok as (reason & Hp & _ & ->). by rewrite Hp.
    + destruct Hok as (url & Hu & ->). split; [by exists url | done].
Qed.

Lemma spread_twice v f : spread (spread v f) f = spread v f.
Proof.
  unfold spread. cbn. f_equal.
  - by destruct (with_status f).
  - by destruct (with_rejectionReason f).
  - by destruct (with_meetingLink f).
Qed.

Lemma patched_value_twice i f v :
  patched_value i f (patched_value i f v) = patched_value i f v.
Proof.
  unfold patched_value. destruct (String.eqb (id v) i) eqn:Hv; [|by rewrite Hv].
  cbn [id spread]. by rewrite Hv, spread_twice.
Qed.

(** X11. Repeating a confirmed mutation on the same id with the same outcome (a
    second click before the first has settled, say) leaves the records as
    the first one left them. *)
Theorem repeated_mutation_changes_nothing m i booking env1 env2 w f :
  remote_succeeds m i env1 f ->
  remote_succeeds m i env2 f ->
  let w1 := after (handler m i booking) env1 w in
  val <$> bookings (after (handler m i booking) env2 w1) = val <$> bookings w1.
Proof.
  intros H1 H2 w1. subst w1.
  rewrite (mutation_success_values _ _ _ _ _ _ H2).
  rewrite (mutation_success_values _ _ _ _ _ _ H1).
  rewrite <- list_fmap_compose. apply list_fmap_ext.
  intros k v _. apply patched_value_twice.
Qed.

Lemma patched_value_commute i j f g v :
  i <> j ->
  patched_value j g (patched_value i f v) =
    patched_value i f (patched_value j g v).
Proof.
  intros Hij. unfold patched_value.
  destruct (String.eqb (id v) i) eqn:Hi, (String.eqb (id v) j) eqn:Hj;
    cbn [id spread]; rewrite ?Hi, ?Hj; try done.
  apply String.eqb_eq in Hi, Hj. congruence.
Qed.

(** X12. Confirmed mutations on two different ids can be done in either order:
    the records are the same afterwards. *)
Theorem mutations_on_distinct_ids_commute m1 m2 i j b1 b2 env1 env2 w f g :
  i <> j ->
  remote_succeeds m1 i env1 f ->
  remote_succeeds m2 j env2 g ->
  val <$> bookings (after (handler m2 j b2) env2 (after (handler m1 i b1) env1 w)) =
  val <$> bookings (after (handler m1 i b1) env1 (after (handler m2 j b2) env2 w)).
Proof.
  intros Hij H1 H2.
  rewrite (mutation_success_values _ _ _ _ (after _ _ w) _ H2).
  rewrite (mutation_success_values _ _ _ _ w _ H1).
  rewrite (mutation_success_values _ _ _ _ (after _ _ w) _ H1).
  rewrite (mutation_success_values _ _ _ _ w _ H2).
  rewrite <- !list_fmap_compose. apply list_fmap_ext.
  intros k v _. by apply patched_value_commute.
Qed.

Lemma patched_absent i f lo hi l l' :
  Forall (fun b => id (val b) <> i) l ->
  Forall2 (patched_at i f lo hi) l l' -> l' = l.
Proof.
  intros Habs Hall. induction Hall as [|b b' l l' Hb _ IH]; [done|].
  apply Forall_cons in Habs as [Hne Habs]. rewrite (IH Habs). f_equal.
  unfold patched_at in Hb. by rewrite (eqb_id_false _ _ Hne) in Hb.
Qed.

(** X13. A confirmed mutation of an id that no record of the store has is still
    reported as a success, although the store holds exactly the same
    objects as before. *)
Theorem mutation_of_unknown_id_reports_success m i booking env w f :
  (i ∉ (fun b => id (val b)) <$> bookings w) ->
  remote_succeeds m i env f ->
  let w' := after (handler m i booking) env w in
  bookings w' = bookings w /\
  toasts (trace w') = ToastSuccess (success_text m) :: toasts (trace w).
Proof.
  intros Hnot Hok w'. subst w'. unfold after.
  destruct (mutation_success m i booking env w f Hok)
    as (l' & n' & call & -> & Hall & Ht & _).
  cbn [snd]. split.
  - cbn [bookings emit put_bookings]. eapply patched_absent; [|exact Hall].
    apply Forall_forall. intros b Hb Hid. apply Hnot.
    apply list_elem_of_fmap. by exists b.
  - unfold toasts in *. cbn [trace emit put_bookings put_next List.filter].
    by rewrite Ht.
Qed.

(** ** Views *)

(** X14. After a confirmed approval of [i], a view filtered by any status other
    than approved (pending, say) shows no record with id [i], and still
    shows every record of another id it showed before. *)
Theorem approved_record_leaves_other_views i booking env env' w :
  loading w = false ->
  statusFilter w <> "all" -> statusFilter w <> "approved" ->
  updated env i "approved" None = inr tt ->
  let w' := after (handleApprove i booking) env w in
  exists table,
    render env' w' = (Normal (Dashboard table), w') /\
    (forall b, b ∈ props_bookings table -> id (val b) <> i) /\
    (forall b, b ∈ bookings w -> id (val b) <> i ->
       status (val b) = statusFilter w -> b ∈ props_bookings table).
Proof.
  intros Hl Hall Happ Hu w'. subst w'. unfold after.
  destruct (handleApprove_succeeds _ booking _ w _ Hu)
    as (l' & n' & -> & _ & Hpatch & _).
  cbn [snd]. set (w' := emit _ _).
  destruct (render_loaded env' w' Hl) as (table & Hrun & Hrows & _).
  exists table. split; [done|]. rewrite Hrows.
  cbn [w' statusFilter bookings emit put_bookings put_next]. split.
  - intros b [[Hsf|Hsf] Hb]%list_elem_of_filter; [done|].
    apply list_elem_of_lookup in Hb as [k Hk'].
    destruct (Forall2_lookup_r _ _ _ _ _ Hpatch Hk') as (o & Hk & Hrel).
    unfold patched_at in Hrel.
    destruct (String.eqb (id (val o)) i) eqn:Ho.
    + destruct Hrel as [Hv _]. rewrite Hv in Hsf. cbn in Hsf. congruence.
    + subst b. by apply String.eqb_neq.
  - intros b Hb Hid Hst. apply list_elem_of_filter. split; [by right|].
    apply list_elem_of_lookup in Hb as [k Hk].
    destruct (Forall2_lookup_l _ _ _ _ _ Hpatch Hk) as (b' & Hk' & Hrel).
    unfold patched_at in Hrel. rewrite (eqb_id_false _ _ Hid) in Hrel.
    subst b'. by eapply list_elem_of_lookup_2.
Qed.

(** X15. Typing in the search box changes the query text handed to
    [BookingTable] and nothing else: the rows handed over are the same
    before and after, whatever the status filter. *)
Theorem query_text_never_filters env w q :
  loading w = false ->
  let w' := after (setGlobalFilter q) env w in
  exists table table',
    render env w = (Normal (Dashboard table), w) /\
    render env w' = (Normal (Dashboard table'), w') /\
    props_bookings table' = props_bookings table /\
    props_globalFilter table' = q /\
    bookings w' = bookings w.
Proof.
  intros Hl w'. subst w'. unfold after. cbn [setGlobalFilter modify snd].
  destruct (render_loaded env w Hl) as (table & Hrun & Hrows & _).
  destruct (render_loaded env (put_globalFilter q w) Hl)
    as (table' & Hrun' & Hrows' & Hq).
  exists table, table'. by rewrite Hrows, Hrows'.
Qed.

Lemma status_matches_all b : status_matches "all" b = true.
Proof. done. Qed.

(** X16. When every record has one of the three statuses of the select box, the
    pending, approved and rejected views show each record of the store in
    exactly one of them: their sizes add up to the size of the all view,
    which is the size of the store. *)
Theorem status_views_partition_store (S : list Obj) :
  Forall (fun b => status (val b) = "pending" \/ status (val b) = "approved" \/
                   status (val b) = "rejected") S ->
  length (array_filter (status_matches "pending") S) +
  length (array_filter (status_matches "approved") S) +
  length (array_filter (status_matches "rejected") S) =
    length (array_filter (status_matches "all") S) /\
  array_filter (status_matches "all") S = S.
Proof.
  unfold array_filter. induction 1 as [|b S Hb _ [IHn IHa]]; [done|].
  cbn [List.filter]. rewrite status_matches_all, IHa. split; [|done].
  rewrite IHa in IHn.
  assert (Hview : forall sf, sf <> "all" ->
            status_matches sf b = String.eqb (status (val b)) sf).
  { intros sf Hsf. unfold status_matches.
    apply String.eqb_neq in Hsf. by rewrite Hsf. }
  rewrite !Hview by done.
  destruct Hb as [Hb | [Hb | Hb]]; rewrite Hb;
    cbn [String.eqb Ascii.eqb Bool.eqb length]; lia.
Qed.

(** * The theorems at concrete inputs *)


Lemma patch_changes_only_matching_witness :
  ("1" ∈ (fun b => id (val b)) <$> bookings two_pending) /\
  let w' := after (setBookings (patch "1" (mkFields (Some "approved") None None)))
              quiet two_pending in
  length (bookings w') = length (bookings two_pending) /\
  (exists b', bookings w' !! 0 = Some b' /\
              2 <= addr b' /\
              id (val b') = "1" /\
              details (val b') = [("name", "A. Requester")] /\
              status (val b') = "approved" /\
              rejectionReason (val b') = None /\
              meetingLink (val b') = None) /\
  bookings w' !! 1 = Some (mkObj 1 (pending "2")).
Proof.
  assert (Hin : "1" ∈ (fun b => id (val b)) <$> bookings two_pending)
    by (vm_compute; constructor).
  split; [exact Hin|].
  destruct (patch_changes_only_matching "1"
              (mkFields (Some "approved") None None) quiet two_pending Hin)
    as (Hlen & _ & Hpos).
  split; [exact Hlen|]. split.
  - destruct (proj1 (Hpos 0 first_row eq_refl) eq_refl)
      as (b' & Hk & _ & Haddr & Hid & Hdet & Hst & Hrr & Hml).
    exists b'. repeat split; assumption.
  - exact (proj2 (Hpos 1 (mkObj 1 (pending "2")) eq_refl)
             ltac:(discriminate)).
Defined.

Lemma patch_absent_id_is_noop_witness :
  ("9" ∉ (fun b => id (val b)) <$> bookings two_pending) /\
  setBookings (patch "9" (mkFields (Some "approved") None None)) quiet two_pending =
    (Normal tt, two_pending).
Proof.
  assert (Hout : "9" ∉ ((fun b => id (val b)) <$> bookings two_pending))
    by (apply (bool_decide_unpack _); vm_compute; exact I).
  split; [exact Hout|].
  exact (proj1 (patch_absent_id_is_noop "9"
                  (mkFields (Some "approved") None None) quiet two_pending Hout)).
Defined.

Lemma reject_cancelled_aborts_witness :
  prompted cancelling "Please enter a reason for rejection:" = None /\
  bookings (after (handleReject "3" first_row) cancelling two_pending) =
    bookings two_pending.
Proof.
  split; [reflexivity|].
  exact (proj1 (reject_cancelled_aborts "3" first_row cancelling two_pending
                  eq_refl)).
Defined.

Lemma reject_with_empty_reason_proceeds_witness :
  prompted wordless "Please enter a reason for rejection:" = Some "" /\
  updated wordless "1" "rejected" (Some "") = inr tt /\
  toasts (trace (after (handleReject "1" first_row) wordless two_pending)) =
    ToastSuccess "Booking rejected successfully" :: toasts (trace two_pending).
Proof.
  split; [reflexivity|]. split; [reflexivity|].
  exact (proj1 (proj2 (reject_with_empty_reason_proceeds "1" first_row wordless
                         two_pending eq_refl) eq_refl)).
Defined.

Lemma session_guard_redirects_witness :
  (currentUser anonymous = None \/ admin anonymous = false) /\
  trace (after loadBookings anonymous initial) = [Navigate "/admin/login"].
Proof.
  split; [by left|].
  exact (proj2 (proj2 (proj2 (session_guard_redirects anonymous initial
                                (or_introl eq_refl))))).
Defined.

Lemma reason_kept_after_rejection_witness :
  reachable rejected_then_approved /\
  reason_since_fetch rejected_then_approved.
Proof.
  assert (Hreach : reachable rejected_then_approved)
    by apply reachable_run, reachable_initial.
  split; [exact Hreach|].
  exact (reason_kept_after_rejection rejected_then_approved Hreach).
Defined.

(** * The further properties at concrete inputs *)

Lemma steps_keep_ids_and_details_witness :
  Mutate Approve "1" first_row <> Mount /\
  length (bookings (after (perform (Mutate Approve "1" first_row)) quiet two_pending)) =
    length (bookings two_pending).
Proof.
  assert (Hne : Mutate Approve "1" first_row <> Mount) by discriminate.
  split; [exact Hne|].
  exact (proj2 (proj2 (steps_keep_ids_and_details
                         (Mutate Approve "1" first_row) quiet two_pending Hne))).
Defined.

Lemma meeting_link_never_cleared_witness :
  Mutate Reject "1" first_row <> Mount /\
  bookings linked !! 0 =
    Some (mkObj 2 (spread (pending "1")
                     (mkFields None None (Some "https://meet.example/1")))) /\
  exists o',
    bookings (after (perform (Mutate Reject "1" first_row)) quiet linked) !! 0 =
      Some o' /\
    is_Some (meetingLink (val o')).
Proof.
  assert (Hne : Mutate Reject "1" first_row <> Mount) by discriminate.
  split; [exact Hne|]. split; [reflexivity|].
  exact (meeting_link_never_cleared (Mutate Reject "1" first_row) quiet linked 0
           _ Hne eq_refl (ex_intro _ "https://meet.example/1" eq_refl)).
Defined.

Lemma navigation_only_to_login_witness :
  reachable rejected_then_approved /\
  Forall (fun p => p = "/admin/login")
    (navigations (trace rejected_then_approved)).
Proof.
  assert (Hreach : reachable rejected_then_approved)
    by apply reachable_run, reachable_initial.
  split; [exact Hreach|].
  exact (navigation_only_to_login rejected_then_approved Hreach).
Defined.

Lemma load_replaces_store_witness :
  currentUser quiet = Some "uid-1" /\ admin quiet = true /\
  fetched quiet = inr [pending "1"; pending "2"] /\
  val <$> bookings (after loadBookings quiet initial) = [pending "1"; pending "2"].
Proof.
  split; [reflexivity|]. split; [reflexivity|]. split; [reflexivity|].
  exact (proj1 (load_replaces_store quiet initial "uid-1" _
                  eq_refl eq_refl eq_refl)).
Defined.

Lemma load_failure_reported_witness :
  currentUser (failing denied) = Some "uid-1" /\ admin (failing denied) = true /\
  fetched (failing denied) = inl (Raised denied) /\
  bookings (after loadBookings (failing denied) two_pending) = bookings two_pending.
Proof.
  split; [reflexivity|]. split; [reflexivity|]. split; [reflexivity|].
  exact (proj1 (load_failure_reported (failing denied) two_pending "uid-1"
                  (Raised denied) eq_refl eq_refl eq_refl)).
Defined.

Lemma handler_throws_only_on_nullish_rejection_witness :
  nullish_rejection (Mutate Approve "1" first_row) voiding /\
  fst (perform (Mutate Approve "1" first_row) voiding two_pending) =
    Throw (type_error voiding).
Proof.
  assert (Hnull : nullish_rejection (Mutate Approve "1" first_row) voiding)
    by reflexivity.
  split; [exact Hnull|].
  exact (proj1 (proj1 (handler_throws_only_on_nullish_rejection
                         (Mutate Approve "1" first_row) voiding two_pending)
                  Hnull)).
Defined.

Lemma mutation_success_patches_store_witness :
  remote_succeeds Reject "1" quiet
    (mkFields (Some "rejected") (Some "schedule conflict") None) /\
  exists b',
    bookings (after (handler Reject "1" first_row) quiet two_pending) !! 0 =
      Some b' /\
    status (val b') = "rejected" /\
    rejectionReason (val b') = Some "schedule conflict" /\
    meetingLink (val b') = None.
Proof.
  assert (Hok : remote_succeeds Reject "1" quiet
                  (mkFields (Some "rejected") (Some "schedule conflict") None))
    by (exists "schedule conflict"; repeat split; reflexivity).
  split; [exact Hok|].
  destruct (mutation_success_patches_store Reject "1" first_row quiet
              two_pending _ Hok) as (_ & _ & _ & Hpos).
  destruct (Hpos 0 first_row eq_refl) as (b' & Hk & _ & _ & _ & Hrej).
  destruct (Hrej eq_refl) as (Hst & Hrr & Hml).
  exists b'. repeat split; assumption.
Defined.

Lemma repeated_mutation_changes_nothing_witness :
  remote_succeeds Approve "1" quiet approving /\
  val <$> bookings (after (handler Approve "1" first_row) quiet
                      (after (handler Approve "1" first_row) quiet two_pending)) =
  val <$> bookings (after (handler Approve "1" first_row) quiet two_pending).
Proof.
  assert (Hok : remote_succeeds Approve "1" quiet approving)
    by (split; reflexivity).
  split; [exact Hok|].
  exact (repeated_mutation_changes_nothing Approve "1" first_row quiet quiet
           two_pending approving Hok Hok).
Defined.

Lemma mutations_on_distinct_ids_commute_witness :
  "1" <> "2" /\
  remote_succeeds Approve "1" quiet approving /\
  remote_succeeds Reject "2" quiet
    (mkFields (Some "rejected") (Some "schedule conflict") None) /\
  val <$> bookings (after (handler Reject "2" first_row) quiet
                      (after (handler Approve "1" first_row) quiet two_pending)) =
  val <$> bookings (after (handler Approve "1" first_row) quiet
                      (after (handler Reject "2" first_row) quiet two_pending)).
Proof.
  assert (Hne : "1" <> "2") by discriminate.
  assert (H1 : remote_succeeds Approve "1" quiet approving)
    by (split; reflexivity).
  assert (H2 : remote_succeeds Reject "2" quiet
                 (mkFields (Some "rejected") (Some "schedule conflict") None))
    by (exists "schedule conflict"; repeat split; reflexivity).
  split; [exact Hne|]. split; [exact H1|]. split; [exact H2|].
  exact (mutations_on_distinct_ids_commute Approve Reject "1" "2" first_row
           first_row quiet quiet two_pending _ _ Hne H1 H2).
Defined.

Lemma mutation_of_unknown_id_reports_success_witness :
  ("9" ∉ (fun b => id (val b)) <$> bookings two_pending) /\
  remote_succeeds Approve "9" quiet approving /\
  bookings (after (handler Approve "9" first_row) quiet two_pending) =
    bookings two_pending.
Proof.
  assert (Hout : "9" ∉ (fun b => id (val b)) <$> bookings two_pending)
    by (apply (bool_decide_unpack _); vm_compute; exact I).
  assert (Hok : remote_succeeds Approve "9" quiet approving)
    by (split; reflexivity).
  split; [exact Hout|]. split; [exact Hok|].
  exact (proj1 (mutation_of_unknown_id_reports_success Approve "9" first_row
                  quiet two_pending approving Hout Hok)).
Defined.

Lemma approved_record_leaves_other_views_witness :
  loading pending_view = false /\
  statusFilter pending_view <> "all" /\
  statusFilter pending_view <> "approved" /\
  updated quiet "1" "approved" None = inr tt /\
  exists table,
    render quiet (after (handleApprove "1" first_row) quiet pending_view) =
      (Normal (Dashboard table),
       after (handleApprove "1" first_row) quiet pending_view) /\
    forall b, b ∈ props_bookings table -> id (val b) <> "1".
Proof.
  assert (Hall : statusFilter pending_view <> "all") by discriminate.
  assert (Happ : statusFilter pending_view <> "approved") by discriminate.
  split; [reflexivity|]. split; [exact Hall|]. split; [exact Happ|].
  split; [reflexivity|].
  destruct (approved_record_leaves_other_views "1" first_row quiet quiet
              pending_view eq_refl Hall Happ eq_refl) as (table & Hrun & Hrows & _).
  exists table. split; [exact Hrun | exact Hrows].
Defined.

Lemma query_text_never_filters_witness :
  loading two_pending = false /\
  bookings (after (setGlobalFilter "requester") quiet two_pending) =
    bookings two_pending.
Proof.
  split; [reflexivity|].
  destruct (query_text_never_filters quiet two_pending "requester" eq_refl)
    as (table & table' & _ & _ & _ & _ & Hsame).
  exact Hsame.
Defined.

Lemma status_views_partition_store_witness :
  Forall (fun b => status (val b) = "pending" \/ status (val b) = "approved" \/
                   status (val b) = "rejected") (bookings two_pending) /\
  array_filter (status_matches "all") (bookings two_pending) = bookings two_pending.
Proof.
  assert (Hst : Forall (fun b => status (val b) = "pending" \/
                                 status (val b) = "approved" \/
                                 status (val b) = "rejected") (bookings two_pending))
    by (repeat constructor).
  split; [exact Hst|].
  exact (proj2 (status_views_partition_store (bookings two_pending) Hst)).
Defined.
